(** * Streaming chunk pipeline of the speech-to-text plugin (src/main.ts)

    A shallow embedding of the sample queue, the silence gate, the WAV
    encoder, the transcript stitcher and the tuning step of
    [SpeechToTextPlugin], with the properties the specification states
    about them.

    Conventions of the embedding.
    - A JavaScript string is a list of code units.  The development covers
      the strings whose code units are below 256 (ASCII and Latin-1), which
      is where the lower-casing, the white-space class and the character
      class of the normaliser are written out in full.
    - A [Float32Array] is a list of samples; the queue is generic in the
      sample type, the encoder takes samples as exact rationals extended
      with NaN and the infinities, the silence gate takes them as IEEE 754
      binary64 numbers with every operation rounded.
    - Mutable fields of the plugin object are threaded explicitly. *)

From Stdlib Require Import Ascii String.
From Stdlib Require Import List Bool Arith ZArith QArith Qround Qminmax Lia.
From Stdlib Require Import SpecFloat.
Import ListNotations.

Local Open Scope Z_scope.

(* ================================================================== *)
(** ** Sample queue: [sampleBuffers], [samplesCollected]               *)
(* ================================================================== *)

Section SampleQueue.

Variable sample : Type.
(** the value a fresh [Float32Array] is filled with *)
Variable zero : sample.

Definition block := list sample.

Record queue := mkQueue {
  sampleBuffers : list block;
  samplesCollected : Z
}.

(** the initial fields, also restored by [stopTranscription] *)
Definition emptyQueue : queue := mkQueue [] 0.

(** [sampleBuffers.push(clone); samplesCollected += clone.length] *)
Definition push (clone : block) (q : queue) : queue :=
  mkQueue (sampleBuffers q ++ [clone])
          (samplesCollected q + Z.of_nat (List.length clone)).

(** [out.set(src, offset)] on a typed array: overwrites
    [out[offset .. offset + src.length)] *)
Definition array_set (out : block) (src : block) (offset : nat) : block :=
  firstn offset out ++ src ++ skipn (offset + List.length src) out.

(** The [while (offset < count && sampleBuffers.length > 0)] loop of
    [takeSamples].  Every iteration either shifts the first buffer off the
    list or replaces it by its back part and brings [offset] to [count],
    after which the loop test fails; the recursion is on the buffer list. *)
Fixpoint takeLoop (count : nat) (buffers : list block) (offset : nat)
    (out : block) : block * list block :=
  match buffers with
  | [] => (out, [])
  | buffer :: rest =>
    if (offset <? count)%nat then
      let needed := (count - offset)%nat in
      if (List.length buffer <=? needed)%nat then
        takeLoop count rest (offset + List.length buffer)%nat
                 (array_set out buffer offset)
      else
        (array_set out (firstn needed buffer) offset,
         skipn needed buffer :: rest)
    else (out, buffers)
  end.

Definition takeSamples (count : nat) (q : queue) : block * queue :=
  let '(out, buffers) :=
    takeLoop count (sampleBuffers q) 0 (repeat zero count) in
  (out, mkQueue buffers (samplesCollected q - Z.of_nat count)).

(** The [while (remaining > 0 && sampleBuffers.length > 0)] loop of
    [discardSamples]. *)
Fixpoint discardLoop (buffers : list block) (remaining : Z) : list block :=
  match buffers with
  | [] => []
  | buffer :: rest =>
    if 0 <? remaining then
      if Z.of_nat (List.length buffer) <=? remaining then
        discardLoop rest (remaining - Z.of_nat (List.length buffer))
      else skipn (Z.to_nat remaining) buffer :: rest
    else buffers
  end.

Definition discardSamples (count : Z) (q : queue) : queue :=
  mkQueue (discardLoop (sampleBuffers q) count)
          (Z.max 0 (samplesCollected q - count)).

(** [trimBacklog]: the second component is the amount passed to
    [console.warn], when the warning is printed. *)
Definition trimBacklog (maxBufferedChunks samplesPerChunk : Z) (q : queue)
    : queue * option Z :=
  let maxSamples := samplesPerChunk * maxBufferedChunks in
  if samplesCollected q <=? maxSamples then (q, None)
  else
    let overflow := samplesCollected q - maxSamples in
    (discardSamples overflow q, Some overflow).

(** the three statements that open [onaudioprocess] *)
Definition arrive (maxBufferedChunks samplesPerChunk : Z) (clone : block)
    (q : queue) : queue :=
  fst (trimBacklog maxBufferedChunks samplesPerChunk (push clone q)).

Definition arriveAll (maxBufferedChunks samplesPerChunk : Z)
    (blocks : list block) (q : queue) : queue :=
  fold_left (fun q b => arrive maxBufferedChunks samplesPerChunk b q) blocks q.

(** successive [takeSamples] calls, results in call order *)
Fixpoint takeAll (counts : list nat) (q : queue) : list block * queue :=
  match counts with
  | [] => ([], q)
  | n :: counts' =>
    let '(out, q1) := takeSamples n q in
    let '(outs, q2) := takeAll counts' q1 in
    (out :: outs, q2)
  end.

(** every call of the series is made with [samplesCollected >= count],
    the test the caller's [while] performs *)
Fixpoint available (counts : list nat) (q : queue) : Prop :=
  match counts with
  | [] => True
  | n :: counts' =>
    Z.of_nat n <= samplesCollected q /\ available counts' (snd (takeSamples n q))
  end.

(** the invariant of the data model: the running count is the number of
    queued samples *)
Definition queue_wf (q : queue) : Prop :=
  samplesCollected q = Z.of_nat (List.length (concat (sampleBuffers q))).

(** What the specification words say of [take]. *)
Inductive take_error := InsufficientData.

Definition take_stated (n : nat) (q : queue) : take_error + block * queue :=
  if samplesCollected q <? Z.of_nat n then inl InsufficientData
  else inr (takeSamples n q).

End SampleQueue.

Arguments mkQueue {sample}.
Arguments sampleBuffers {sample}.
Arguments samplesCollected {sample}.
Arguments emptyQueue {sample}.
Arguments push {sample}.
Arguments takeSamples {sample}.
Arguments takeLoop {sample}.
Arguments array_set {sample}.
Arguments discardLoop {sample}.
Arguments discardSamples {sample}.
Arguments trimBacklog {sample}.
Arguments arrive {sample}.
Arguments arriveAll {sample}.
Arguments takeAll {sample}.
Arguments available {sample}.
Arguments queue_wf {sample}.
Arguments take_stated {sample}.

(* ================================================================== *)
(** ** JavaScript strings                                              *)
(* ================================================================== *)

(** A string is its list of code units; [str] reads a literal. *)
Definition jsstring := list ascii.

Definition str (s : string) : jsstring := list_ascii_of_string s.

Definition code (c : ascii) : N := N_of_ascii c.

(** The class [\s], which is also what [trim] and [trimStart] strip: TAB,
    LF, VT, FF, CR, SPACE and NO-BREAK SPACE are its members below 256. *)
Definition is_space (c : ascii) : bool :=
  let n := code c in
  (((9 <=? n) && (n <=? 13)) || (n =? 32) || (n =? 160))%N.

(** [toLowerCase] on one code unit: A-Z, and the capital letters of
    U+00C0..U+00DE (U+00D7, the multiplication sign, has no case). *)
Definition lower_char (c : ascii) : ascii :=
  let n := code c in
  if (((65 <=? n) && (n <=? 90)) ||
      ((192 <=? n) && (n <=? 222) && negb (n =? 215)))%N
  then ascii_of_N (n + 32) else c.

Definition toLowerCase (s : jsstring) : jsstring := map lower_char s.

(** truthiness of a string: it is not empty *)
Definition truthy (s : jsstring) : bool :=
  match s with [] => false | _ :: _ => true end.

Fixpoint str_eqb (a b : jsstring) : bool :=
  match a, b with
  | [], [] => true
  | x :: a', y :: b' => Ascii.eqb x y && str_eqb a' b'
  | _, _ => false
  end.

Fixpoint trimStart (s : jsstring) : jsstring :=
  match s with
  | c :: s' => if is_space c then trimStart s' else s
  | [] => []
  end.

Definition trimEnd (s : jsstring) : jsstring := rev (trimStart (rev s)).

Definition trim (s : jsstring) : jsstring := trimEnd (trimStart s).

(** [parts.join(sep)] *)
Fixpoint join (sep : jsstring) (parts : list jsstring) : jsstring :=
  match parts with
  | [] => []
  | [p] => p
  | p :: rest => p ++ sep ++ join sep rest
  end.

(** [s.split(/(\s+)/)]: the pieces between the maximal runs of white
    space, with each run spliced in after the piece it ends.  A string
    that starts (ends) with white space has an empty first (last) piece;
    the empty string splits into one empty piece. *)
Fixpoint split_capture (s : jsstring) : list jsstring :=
  match s with
  | [] => [[]]
  | c :: s' =>
    match split_capture s' with
    | piece :: rest =>
      if is_space c then
        match piece, rest with
        | [], run :: rest' => [] :: (c :: run) :: rest'
        | _, _ => [] :: [c] :: piece :: rest
        end
      else (c :: piece) :: rest
    | [] => [[c]]
    end
  end.

(** the pieces of an alternating piece/separator list *)
Fixpoint pieces (tokens : list jsstring) : list jsstring :=
  match tokens with
  | p :: _ :: rest => p :: pieces rest
  | _ => tokens
  end.

(** [s.split(/\s+/)]: the same pieces, without the separators *)
Definition split_ws (s : jsstring) : list jsstring := pieces (split_capture s).

(** [s.replace(/\s+/g, ' ')] *)
Fixpoint collapse_ws (s : jsstring) : jsstring :=
  match s with
  | [] => []
  | c :: s' =>
    if is_space c then
      match s' with
      | c' :: _ => if is_space c' then collapse_ws s' else " "%char :: collapse_ws s'
      | [] => [" "%char]
      end
    else c :: collapse_ws s'
  end.

(** [/^\s+$/.test(token)] *)
Definition is_ws_token (token : jsstring) : bool :=
  truthy token && forallb is_space token.

(** [array.slice(-n)] for [n >= 1] *)
Definition slice_last {A : Type} (n : nat) (l : list A) : list A :=
  skipn (List.length l - n) l.

(* ================================================================== *)
(** ** Transcript stitcher                                             *)
(* ================================================================== *)

(** The members of [[a-z0-9À-ſ]] under the [i] flag. *)
Definition word_char (c : ascii) : bool :=
  let n := code c in
  (((97 <=? n) && (n <=? 122)) || ((65 <=? n) && (n <=? 90)) ||
   ((48 <=? n) && (n <=? 57)) || (192 <=? n))%N.

(** [token.toLowerCase().replace(/[^a-z0-9À-ſ]+/gi, '')] *)
Definition normalize (token : jsstring) : jsstring :=
  filter word_char (toLowerCase token).

Record dedupe_state := mkDedupe {
  output : list jsstring;
  lastWord : jsstring;
  repeatCount : Z
}.

(** one iteration of [for (const token of tokens)] *)
Definition dedupe_step (maxConsecutiveWordRepeats : Z) (st : dedupe_state)
    (token : jsstring) : dedupe_state :=
  if is_ws_token token then
    mkDedupe (output st ++ [token]) (lastWord st) (repeatCount st)
  else
    let normalized := normalize token in
    if truthy normalized && str_eqb normalized (lastWord st) then
      let repeatCount' := repeatCount st + 1 in
      if repeatCount' >=? maxConsecutiveWordRepeats then
        mkDedupe (output st) (lastWord st) repeatCount'
      else
        mkDedupe (output st ++ [token]) (lastWord st) repeatCount'
    else
      mkDedupe (output st ++ [token]) normalized 0.

Definition dedupeConsecutiveWords (maxConsecutiveWordRepeats : Z)
    (text : jsstring) : jsstring :=
  if negb (truthy text) then text
  else
    let tokens := split_capture text in
    let st := fold_left (dedupe_step maxConsecutiveWordRepeats) tokens
                        (mkDedupe [] [] 0) in
    trim (collapse_ws (concat (output st))).

(** The [for (overlap = maxOverlap; overlap > 0; overlap--)] loop of
    [cleanTranscript], with the statement after it. *)
Fixpoint overlapLoop (maxConsecutiveWordRepeats : Z)
    (prevWords nextWords : list jsstring) (normalizedIncoming : jsstring)
    (overlap : nat) : jsstring :=
  match overlap with
  | O => dedupeConsecutiveWords maxConsecutiveWordRepeats normalizedIncoming
  | S overlap' =>
    let tailPhrase := toLowerCase (join (str " ") (slice_last overlap prevWords)) in
    let headPhrase := toLowerCase (join (str " ") (firstn overlap nextWords)) in
    if str_eqb tailPhrase headPhrase then
      let remainder := join (str " ") (skipn overlap nextWords) in
      dedupeConsecutiveWords maxConsecutiveWordRepeats remainder
    else
      overlapLoop maxConsecutiveWordRepeats prevWords nextWords
                  normalizedIncoming overlap'
  end.

Definition cleanTranscript (maxConsecutiveWordRepeats : Z)
    (incoming previousTail : jsstring) : jsstring :=
  if negb (truthy incoming) then incoming
  else
    let normalizedIncoming := trimStart incoming in
    if negb (truthy previousTail) then
      dedupeConsecutiveWords maxConsecutiveWordRepeats normalizedIncoming
    else
      let prevWords := split_ws (trim previousTail) in
      let nextWords := split_ws normalizedIncoming in
      let maxOverlap :=
        Nat.min 6 (Nat.min (List.length prevWords) (List.length nextWords)) in
      overlapLoop maxConsecutiveWordRepeats prevWords nextWords
                  normalizedIncoming maxOverlap.

(** [combined.slice(-200)] *)
Definition updateTail (previousTail appended : jsstring) : jsstring :=
  let combined := previousTail ++ appended in
  skipn (List.length combined - 200) combined.

(** *** The stitcher in the words of the specification *)

(** The repeat index of a word: how many words immediately before it, one
    after the other, have its normalised form, that form not being empty.
    [before] lists the earlier words, the nearest first. *)
Fixpoint repeat_index (w : jsstring) (before : list jsstring) : nat :=
  match before with
  | p :: before' =>
    if truthy (normalize w) && str_eqb (normalize w) (normalize p)
    then S (repeat_index w before') else O
  | [] => O
  end.

(** "a token is emitted unless it is a repeat and the repeat index has
    reached maxRepeats" *)
Definition emitted (maxRepeats : Z) (w : jsstring) (before : list jsstring)
    : bool :=
  negb ((0 <? repeat_index w before)%nat &&
        (maxRepeats <=? Z.of_nat (repeat_index w before))).

Fixpoint kept_from (maxRepeats : Z) (before words : list jsstring)
    : list jsstring :=
  match words with
  | [] => []
  | w :: words' =>
    (if emitted maxRepeats w before then [w] else []) ++
    kept_from maxRepeats (w :: before) words'
  end.

Definition kept_words (maxRepeats : Z) (words : list jsstring) : list jsstring :=
  kept_from maxRepeats [] words.

(** the non-empty white-space separated words of a text *)
Definition words (s : jsstring) : list jsstring := filter truthy (split_ws s).

(** The same with "repeat" read as the claim words it: equal normalised
    form to the previous word, whatever that form is. *)
Fixpoint repeat_index_stated (w : jsstring) (before : list jsstring) : nat :=
  match before with
  | p :: before' =>
    if str_eqb (normalize w) (normalize p)
    then S (repeat_index_stated w before') else O
  | [] => O
  end.

Fixpoint kept_from_stated (maxRepeats : Z) (before words : list jsstring)
    : list jsstring :=
  match words with
  | [] => []
  | w :: words' =>
    (if negb ((0 <? repeat_index_stated w before)%nat &&
              (maxRepeats <=? Z.of_nat (repeat_index_stated w before)))
     then [w] else []) ++
    kept_from_stated maxRepeats (w :: before) words'
  end.

Definition dedupe_stated (maxRepeats : Z) (text : jsstring) : jsstring :=
  join (str " ") (kept_from_stated maxRepeats [] (words text)).

(** "the last k words of the tail against the first k words of the
    incoming fragment, case-insensitively" *)
Definition overlap_matches (k : nat) (prevWords nextWords : list jsstring)
    : Prop :=
  map toLowerCase (slice_last k prevWords) = map toLowerCase (firstn k nextWords).

(** the properties of a text whose only white space is single spaces
    between words *)
Fixpoint no_double_space (s : jsstring) : Prop :=
  match s with
  | c :: ((c' :: _) as s') =>
    ~ (is_space c = true /\ is_space c' = true) /\ no_double_space s'
  | _ => True
  end.

Definition single_spaced (s : jsstring) : Prop :=
  (forall c, In c s -> is_space c = true -> c = " "%char) /\
  no_double_space s /\
  trim s = s.

(** what the loop of [dedupeConsecutiveWords] knows of the words it has
    seen, the nearest first *)
Definition tracks (st : dedupe_state) (before : list jsstring) : Prop :=
  match before with
  | [] => lastWord st = [] /\ repeatCount st = 0
  | p :: before' =>
    lastWord st = normalize p /\
    repeatCount st = Z.of_nat (repeat_index p before')
  end.

(** *** Shapes of token lists, used to reason about the splits *)

Definition ws_free (s : jsstring) : Prop :=
  forallb (fun c => negb (is_space c)) s = true.

(** pieces without white space, separated by non-empty runs of white space *)
Inductive alternating : list jsstring -> Prop :=
| alt_last p : ws_free p -> alternating [p]
| alt_cons p run rest :
    ws_free p -> is_ws_token run = true -> alternating rest ->
    alternating (p :: run :: rest).

(** every piece but the last is non-empty *)
Fixpoint mid_truthy (ps : list jsstring) : Prop :=
  match ps with
  | p :: ((_ :: _) as rest) => p <> [] /\ mid_truthy rest
  | _ => True
  end.

(** the token list with every piece that is not emitted replaced by the
    empty piece *)
Fixpoint blank (maxRepeats : Z) (before tokens : list jsstring)
    : list jsstring :=
  match tokens with
  | p :: run :: rest =>
    (if emitted maxRepeats p before then p else []) :: run ::
    blank maxRepeats (p :: before) rest
  | [p] => [if emitted maxRepeats p before then p else []]
  | [] => []
  end.

(* ================================================================== *)
(** ** Numbers                                                         *)
(* ================================================================== *)

(** A JavaScript number that is read from the settings or from a
    [Float32Array]: a rational, or one of the three values that are not
    finite. *)
Inductive number :=
| Finite (q : Q)
| NaN
| PosInfinity
| NegInfinity.

Definition isFinite (x : number) : bool :=
  match x with Finite _ => true | _ => false end.

(** [x < y], [x > y] and [x >= y]; every comparison with NaN is false *)
Definition num_lt (x y : number) : bool :=
  match x, y with
  | NaN, _ | _, NaN => false
  | Finite a, Finite b => negb (Qle_bool b a)
  | NegInfinity, NegInfinity => false
  | NegInfinity, _ => true
  | Finite _, PosInfinity => true
  | _, _ => false
  end.

Definition num_gt (x y : number) : bool := num_lt y x.

Definition num_ge (x y : number) : bool :=
  match x, y with
  | NaN, _ | _, NaN => false
  | Finite a, Finite b => Qle_bool b a
  | _, NegInfinity => true
  | PosInfinity, _ => true
  | _, _ => false
  end.

(** [Math.min] and [Math.max] of two numbers: NaN if either is NaN *)
Definition Math_min (x y : number) : number :=
  match x, y with
  | NaN, _ | _, NaN => NaN
  | _, _ => if num_lt y x then y else x
  end.

Definition Math_max (x y : number) : number :=
  match x, y with
  | NaN, _ | _, NaN => NaN
  | _, _ => if num_lt x y then y else x
  end.

(** [x * k] for a finite [k > 0] *)
Definition num_scale (x : number) (k : Q) : number :=
  match x with
  | Finite q => Finite (q * k)
  | other => other
  end.

(** [Math.round] of a finite number: the nearest integer, halves upwards *)
Definition Math_round (q : Q) : Z := Qfloor (q + (1 # 2)).

(** the integer part, towards zero *)
Definition Qtruncate (q : Q) : Z := Z.quot (Qnum q) (Z.pos (Qden q)).

(** The conversion applied by a store to an [Int16Array] and by
    [DataView.setInt16]: not finite gives 0, else the integer part taken
    modulo 2^16 into [-2^15, 2^15). *)
Definition wrap_int16 (z : Z) : Z :=
  let m := z mod 65536 in if 32768 <=? m then m - 65536 else m.

Definition ToInt16 (x : number) : Z :=
  match x with
  | Finite q => wrap_int16 (Qtruncate q)
  | _ => 0
  end.

(* ================================================================== *)
(** ** Tuning step                                                     *)
(* ================================================================== *)

(** the fields of [this.settings] read by the tuning step *)
Module settings.
Record t := mk {
  chunkMs : number;
  silenceThreshold : number;
  maxBufferedChunks : number;
  maxConsecutiveWordRepeats : number
}.
End settings.

(** the fields of the plugin object set by [applyTuningSettings] *)
Record tuning := mkTuning {
  silenceRmsThreshold : number;
  maxBufferedChunks : Z;
  maxConsecutiveWordRepeats : Z
}.

Definition applyTuningSettings (s : settings.t) : tuning :=
  mkTuning
    (if isFinite (settings.silenceThreshold s)
     then Math_max (Finite 0) (settings.silenceThreshold s)
     else Finite (15 # 10000))
    (match settings.maxBufferedChunks s with
     | Finite q => if num_gt (Finite q) (Finite 0) then Math_round q else 12
     | _ => 12
     end)
    (match settings.maxConsecutiveWordRepeats s with
     | Finite q => if num_ge (Finite q) (Finite 1) then Math_round q else 2
     | _ => 2
     end).

(** [Math.max(1, Math.round(...))] in [startPCMRecorder], from the rounded
    number of samples in [chunkMs] milliseconds *)
Definition samplesPerChunk (rounded : Z) : Z := Z.max 1 rounded.

(** the effective bound in the words of the specification: a configured
    value below 1 is clamped to 1 *)
Definition repeats_stated (x : number) : Z :=
  match x with
  | Finite q => if num_ge (Finite q) (Finite 1) then Math_round q else 1
  | _ => 1
  end.

(* ================================================================== *)
(** ** WAV encoder                                                     *)
(* ================================================================== *)

(** An [ArrayBuffer] is its list of bytes.  A [DataView] write outside
    the buffer throws a [RangeError]: [None]. *)
Definition bytes := list Z.

Notation "x <- e1 ;; e2" :=
  (match e1 with Some x => e2 | None => None end)
  (at level 61, e1 at next level, right associativity).

(** [count] bytes of [v], the least significant first *)
Fixpoint le_bytes (count : nat) (v : Z) : list Z :=
  match count with
  | O => []
  | S count' => v mod 256 :: le_bytes count' (v / 256)
  end.

Definition write_bytes (view : bytes) (offset : nat) (bs : list Z)
    : option bytes :=
  if (offset + List.length bs <=? List.length view)%nat
  then Some (array_set view bs offset) else None.

Definition setUint8 (view : bytes) (offset : nat) (v : Z) : option bytes :=
  write_bytes view offset (le_bytes 1 (v mod 2 ^ 8)).

(** the little-endian writes ([littleEndian = true]) *)
Definition setUint16 (view : bytes) (offset : nat) (v : Z) : option bytes :=
  write_bytes view offset (le_bytes 2 (v mod 2 ^ 16)).

Definition setUint32 (view : bytes) (offset : nat) (v : Z) : option bytes :=
  write_bytes view offset (le_bytes 4 (v mod 2 ^ 32)).

Definition setInt16 (view : bytes) (offset : nat) (v : Z) : option bytes :=
  write_bytes view offset (le_bytes 2 (v mod 2 ^ 16)).

Definition charCode (c : ascii) : Z := Z.of_N (N_of_ascii c).

(** [writeString(offset, str)] *)
Fixpoint writeString (view : bytes) (offset : nat) (s : jsstring)
    : option bytes :=
  match s with
  | [] => Some view
  | c :: s' =>
    view' <- setUint8 view offset (charCode c) ;;
    writeString view' (S offset) s'
  end.

(** One element of [pcm]: the clamped sample, scaled, stored in an
    [Int16Array].  A [Float32Array] element has a 24-bit significand, so
    its product by [0x8000] or [0x7fff] is exact in double precision: the
    rational product is the number the code computes. *)
Definition pcm_sample (x : number) : Z :=
  let s := Math_max (Finite (-1)) (Math_min (Finite 1) x) in
  ToInt16 (if num_lt s (Finite 0) then num_scale s 32768 else num_scale s 32767).

(** [for (i ...) view.setInt16(44 + i * 2, pcm[i], true)], from index [i] *)
Fixpoint writePcm (view : bytes) (i : nat) (pcm : list Z) : option bytes :=
  match pcm with
  | [] => Some view
  | v :: pcm' =>
    view' <- setInt16 view (44 + i * 2) v ;;
    writePcm view' (S i) pcm'
  end.

Definition encodeWav (samples : list number) (sampleRate : Z) : option bytes :=
  let buffer := repeat 0 (44 + List.length samples * 2) in
  let pcm := map pcm_sample samples in
  let pcm_length := Z.of_nat (List.length pcm) in
  view <- writeString buffer 0 (str "RIFF") ;;
  view <- setUint32 view 4 (36 + pcm_length * 2) ;;
  view <- writeString view 8 (str "WAVE") ;;
  view <- writeString view 12 (str "fmt ") ;;
  view <- setUint32 view 16 16 ;;
  view <- setUint16 view 20 1 ;;
  view <- setUint16 view 22 1 ;;
  view <- setUint32 view 24 sampleRate ;;
  view <- setUint32 view 28 (sampleRate * 2) ;;
  view <- setUint16 view 32 2 ;;
  view <- setUint16 view 34 16 ;;
  view <- writeString view 36 (str "data") ;;
  view <- setUint32 view 40 (pcm_length * 2) ;;
  writePcm view 0 pcm.

(** *** Reading a WAV container back *)

Definition getUint8 (view : bytes) (offset : nat) : Z := nth offset view 0.

Definition getUint16 (view : bytes) (offset : nat) : Z :=
  getUint8 view offset + 256 * getUint8 view (offset + 1).

Definition getUint32 (view : bytes) (offset : nat) : Z :=
  getUint16 view offset + 65536 * getUint16 view (offset + 2).

Definition getInt16 (view : bytes) (offset : nat) : Z :=
  wrap_int16 (getUint16 view offset).

Definition getString (view : bytes) (offset count : nat) : list Z :=
  firstn count (skipn offset view).

(** the fields of the 44-byte header *)
Record wav_header := mkHeader {
  riff_tag : list Z;
  riff_size : Z;
  wave_tag : list Z;
  fmt_tag : list Z;
  fmt_size : Z;
  format_tag : Z;
  channels : Z;
  sample_rate : Z;
  byte_rate : Z;
  block_align : Z;
  bits_per_sample : Z;
  data_tag : list Z;
  data_size : Z
}.

Definition decode_header (view : bytes) : wav_header :=
  mkHeader (getString view 0 4) (getUint32 view 4)
           (getString view 8 4) (getString view 12 4)
           (getUint32 view 16) (getUint16 view 20) (getUint16 view 22)
           (getUint32 view 24) (getUint32 view 28)
           (getUint16 view 32) (getUint16 view 34)
           (getString view 36 4) (getUint32 view 40).

Definition tag (s : string) : list Z := map charCode (str s).

(** the sample count a reader derives from the header *)
Definition decoded_count (h : wav_header) : Z := data_size h / block_align h.

(** the 44 bytes that [encodeWav] writes before the samples *)
Definition header_bytes (sampleRate pcm_length : Z) : bytes :=
  tag "RIFF" ++ le_bytes 4 ((36 + pcm_length * 2) mod 2 ^ 32) ++
  tag "WAVE" ++ tag "fmt " ++
  le_bytes 4 (16 mod 2 ^ 32) ++
  le_bytes 2 (1 mod 2 ^ 16) ++ le_bytes 2 (1 mod 2 ^ 16) ++
  le_bytes 4 (sampleRate mod 2 ^ 32) ++
  le_bytes 4 ((sampleRate * 2) mod 2 ^ 32) ++
  le_bytes 2 (2 mod 2 ^ 16) ++ le_bytes 2 (16 mod 2 ^ 16) ++
  tag "data" ++ le_bytes 4 ((pcm_length * 2) mod 2 ^ 32).

(** the sample value in the words of the specification:
    [round(clamp(s,-1,1) * (s < 0 ? 32768 : 32767))], NaN as silence *)
Definition clampQ (q : Q) : Q := Qmax (-1) (Qmin 1 q).

Definition pcm_stated (x : number) : Z :=
  match x with
  | Finite q =>
    Math_round (clampQ q * (if Qle_bool 0 q then 32767 else 32768))
  | NaN => 0
  | PosInfinity => 32767
  | NegInfinity => -32768
  end.

(** what the code stores: the integer part *)
Definition pcm_truncated (x : number) : Z :=
  match x with
  | Finite q =>
    Qtruncate (clampQ q * (if Qle_bool 0 q then 32767 else 32768))
  | NaN => 0
  | PosInfinity => 32767
  | NegInfinity => -32768
  end.

(* ================================================================== *)
(** ** Silence gate                                                    *)
(* ================================================================== *)

(** JavaScript numbers are IEEE 754 binary64 values.  [spec_float] with the
    operations of [SpecFloat] at precision 53 and exponent bound 1024 is
    the Standard Library's specification of binary64: every operation
    rounds to nearest, ties to even.  The numbers of the program are the
    values [valid_binary] accepts, which the operations preserve; [make m e]
    is [m * 2^e] rounded. *)
Module F64.

Definition double := spec_float.
Definition prec := 53.
Definition emax := 1024.

Definition add : double -> double -> double := SFadd prec emax.
Definition mul : double -> double -> double := SFmul prec emax.
Definition div : double -> double -> double := SFdiv prec emax.
Definition ltb : double -> double -> bool := SFltb.
Definition leb : double -> double -> bool := SFleb.

Definition make (m e : Z) : double := binary_normalize prec emax m e false.
(** an integer as a number, as [samples.length] is read *)
Definition of_Z (z : Z) : double := make z 0.

Definition zero : double := S754_zero false.

Definition isNaN (x : double) : bool :=
  match x with S754_nan => true | _ => false end.

Definition Math_sqrt : double -> double := SFsqrt prec emax.
Definition Math_abs : double -> double := SFabs.

(** [Math.max(x, y)]: NaN if either is NaN, and [+0] is larger than [-0] *)
Definition Math_max (x y : double) : double :=
  if isNaN x || isNaN y then S754_nan
  else if ltb x y then y
  else if ltb y x then x
  else match x with S754_zero true => y | _ => x end.

End F64.

Definition four : F64.double := Eval vm_compute in F64.of_Z 4.

(** the body of [for (let i = 0; i < samples.length; i++)] on
    [(sumSquares, peak)] *)
Definition silence_step (acc : F64.double * F64.double) (value : F64.double)
    : F64.double * F64.double :=
  let abs := F64.Math_abs value in
  (F64.add (fst acc) (F64.mul value value), F64.Math_max (snd acc) abs).

Definition isMostlySilence (silenceRmsThreshold : F64.double)
    (samples : list F64.double) : bool :=
  match samples with
  | [] => true
  | _ =>
    let '(sumSquares, peak) :=
      fold_left silence_step samples (F64.zero, F64.zero) in
    let rms :=
      F64.Math_sqrt
        (F64.div sumSquares (F64.of_Z (Z.of_nat (List.length samples)))) in
    F64.ltb rms silenceRmsThreshold &&
    F64.ltb peak (F64.mul silenceRmsThreshold four)
  end.

(** RMS and peak of a block, as the specification defines them, in the
    arithmetic of the program: the squares are added from the first to the
    last, and the sum, the quotient and the root are each rounded *)
Definition mean_square (samples : list F64.double) : F64.double :=
  F64.div (fold_left F64.add (map (fun s => F64.mul s s) samples) F64.zero)
          (F64.of_Z (Z.of_nat (List.length samples))).

Definition rms_of (samples : list F64.double) : F64.double :=
  F64.Math_sqrt (mean_square samples).

Definition peak_of (samples : list F64.double) : F64.double :=
  fold_left F64.Math_max (map F64.Math_abs samples) F64.zero.

(** case analysis on the comparisons of exponents and mantissas that
    the order of binary64 numbers is made of *)
Ltac cmp_cases :=
  repeat match goal with
  | H : context [Pos.compare_cont Eq ?a ?b] |- _ =>
      change (Pos.compare_cont Eq a b) with (Pos.compare a b) in H
  | |- context [Pos.compare_cont Eq ?a ?b] =>
      change (Pos.compare_cont Eq a b) with (Pos.compare a b)
  end;
  repeat match goal with
  | H : context [Z.compare ?a ?b] |- _ =>
      destruct (Z.compare_spec a b); try subst; cbn in H; try discriminate H
  | |- context [Z.compare ?a ?b] =>
      destruct (Z.compare_spec a b); try subst; cbn
  | H : context [Pos.compare ?a ?b] |- _ =>
      destruct (Pos.compare_spec a b); try subst; cbn in H; try discriminate H
  | |- context [Pos.compare ?a ?b] =>
      destruct (Pos.compare_spec a b); try subst; cbn
  end;
  try reflexivity; try discriminate; try lia.

(* ================================================================== *)
(** ** The chunking loop of [onaudioprocess]                           *)
(* ================================================================== *)

Section ChunkLoop.

Variable sample : Type.
Variable zero : sample.

(** [this.isMostlySilence(chunkSamples)], at the threshold in effect *)
Variable gate : block sample -> bool.

(** What the loop cannot know: whether the statements of the [try] block
    (the request to the transcription service, then the insertion in the
    editor) complete for the [k]-th chunk sent, or one of them throws.
    They act on the editor and on the transcript tail, not on the queue. *)
Variable tryBlock : nat -> block sample -> bool.

(** the fields of the plugin the handler works on, and the number of chunks
    sent so far *)
Record recorder := mkRecorder {
  isTranscribing : bool;
  buffered : queue sample;
  sent : nat
}.

(** the start of a session *)
Definition startRecorder : recorder := mkRecorder true emptyQueue 0.

(** [stopTranscription], on these fields: nothing when no session runs;
    else the handler is removed, the queue emptied and the flag cleared *)
Definition stopTranscription (r : recorder) : recorder :=
  if negb (isTranscribing r) then r
  else mkRecorder false emptyQueue (sent r).

(** [while (samplesCollected >= samplesPerChunk)] with its body, for one
    run of the handler that no other run interleaves with (the body
    suspends only while a chunk that is not silent is sent): a chunk is
    taken; a silent chunk is skipped; else the [try] block runs, and when
    it throws the [catch] calls [stopTranscription].  The result lists the
    chunks taken, in order.  [fuel] bounds the iterations. *)
Fixpoint chunkLoop (fuel : nat) (samplesPerChunk : nat) (r : recorder)
    : list (block sample) * recorder :=
  match fuel with
  | O => ([], r)
  | S fuel' =>
    if Z.of_nat samplesPerChunk <=? samplesCollected (buffered r) then
      let '(chunkSamples, q1) := takeSamples zero samplesPerChunk (buffered r) in
      let r1 := mkRecorder (isTranscribing r) q1 (sent r) in
      let r2 :=
        if gate chunkSamples then r1
        else
          let r1' := mkRecorder (isTranscribing r) q1 (S (sent r)) in
          if tryBlock (sent r) chunkSamples then r1'
          else stopTranscription r1' in
      let '(chunks, r3) := chunkLoop fuel' samplesPerChunk r2 in
      (chunkSamples :: chunks, r3)
    else ([], r)
  end.

(** push, trim, then the loop: one audio event *)
Definition onaudioprocess (maxBufferedChunks : Z) (samplesPerChunk : nat)
    (clone : block sample) (r : recorder)
    : list (block sample) * recorder :=
  let q1 :=
    arrive maxBufferedChunks (Z.of_nat samplesPerChunk) clone (buffered r) in
  chunkLoop (Z.to_nat (samplesCollected q1)) samplesPerChunk
            (mkRecorder (isTranscribing r) q1 (sent r)).

(** a series of audio events, each handled before the next arrives; once
    [stopTranscription] has removed the handler no event is handled.  The
    result lists the chunks taken, in order. *)
Fixpoint onaudioprocessAll (maxBufferedChunks : Z) (samplesPerChunk : nat)
    (blocks : list (block sample)) (r : recorder)
    : list (block sample) * recorder :=
  match blocks with
  | [] => ([], r)
  | clone :: rest =>
    if isTranscribing r then
      let '(chunks, r1) :=
        onaudioprocess maxBufferedChunks samplesPerChunk clone r in
      let '(more, r2) :=
        onaudioprocessAll maxBufferedChunks samplesPerChunk rest r1 in
      (chunks ++ more, r2)
    else ([], r)
  end.

End ChunkLoop.

Arguments mkRecorder {sample}.
Arguments isTranscribing {sample}.
Arguments buffered {sample}.
Arguments sent {sample}.
Arguments startRecorder {sample}.
Arguments stopTranscription {sample}.
Arguments chunkLoop {sample}.
Arguments onaudioprocess {sample}.
Arguments onaudioprocessAll {sample}.

(* ================================================================== *)
(** ** Inserting a transcript in the editor                            *)
(* ================================================================== *)

(** The editor is its text; a position is an offset in it.
    [getRange(from, to)] is the text between two offsets and
    [replaceRange(text, pos)] inserts at an offset. *)
Definition getRange (doc : jsstring) (from to : nat) : jsstring :=
  firstn (to - from) (skipn from doc).

Definition replaceRange (doc : jsstring) (text : jsstring) (pos : nat)
    : jsstring :=
  firstn pos doc ++ text ++ skipn pos doc.

(** [/^\s/.test(s)] and [/\s/.test(s)] *)
Definition starts_with_space (s : jsstring) : bool :=
  match s with c :: _ => is_space c | [] => false end.

Definition has_space (s : jsstring) : bool := existsb is_space s.

(** what the handler keeps between two chunks: [baseOffset] (null until the
    first insertion) and [lastTranscriptTail] *)
Record stitch_state := mkStitch {
  baseOffset : option nat;
  lastTranscriptTail : jsstring
}.

(** The statements of the handler from the transcript to [setCursor], on
    the active editor with text [doc] and cursor offset [cursor]; [None] for
    the editor when no editor is active.  The result is the text and the
    cursor of the editor afterwards, and the new state. *)
Definition insertTranscript (maxConsecutiveWordRepeats : Z)
    (transcript : jsstring) (editor : option (jsstring * nat))
    (st : stitch_state) : option (jsstring * nat) * stitch_state :=
  match editor with
  | None => (editor, st)
  | Some (doc, cursor) =>
    if negb (truthy transcript) then (editor, st)
    else
      let insertText :=
        cleanTranscript maxConsecutiveWordRepeats transcript
                        (lastTranscriptTail st) in
      if negb (truthy insertText) then (editor, st)
      else
        let base :=
          match baseOffset st with None => cursor | Some b => b end in
        let insertText' :=
          if (0 <? base)%nat && truthy insertText &&
             negb (starts_with_space insertText) then
            let prevChar := getRange doc (base - 1) base in
            if truthy prevChar && negb (has_space prevChar)
            then " "%char :: insertText else insertText
          else insertText in
        let base' := (base + List.length insertText')%nat in
        (Some (replaceRange doc insertText' base, base'),
         mkStitch (Some base') (updateTail (lastTranscriptTail st) insertText'))
  end.

(** a series of transcripts on one editor that nothing else edits *)
Fixpoint insertAll (maxConsecutiveWordRepeats : Z)
    (transcripts : list jsstring) (doc : jsstring) (cursor : nat)
    (st : stitch_state) : jsstring * nat * stitch_state :=
  match transcripts with
  | [] => (doc, cursor, st)
  | transcript :: rest =>
    match insertTranscript maxConsecutiveWordRepeats transcript
                           (Some (doc, cursor)) st with
    | (Some (doc', cursor'), st') =>
      insertAll maxConsecutiveWordRepeats rest doc' cursor' st'
    | (None, st') => (doc, cursor, st')
    end
  end.

(** the text ends with a character that is not white space *)
Definition ends_with_word (s : jsstring) : bool :=
  match rev s with c :: _ => negb (is_space c) | [] => false end.

(** the space that keeps an inserted text apart from the text before it *)
Definition leading_space (before : jsstring) : jsstring :=
  if ends_with_word before then [" "%char] else [].

(** *** Cleaning twice *)

(** the bound that counts: at least one *)
Definition cap (maxRepeats : Z) : nat := Z.to_nat (Z.max 1 maxRepeats).

(** the words kept so far stand for the words seen so far: every repeat
    index agrees up to the bound *)
Definition stands_for (maxRepeats : Z) (kept before : list jsstring) : Prop :=
  forall v, repeat_index v kept =
            Nat.min (repeat_index v before) (cap maxRepeats).

(* ================================================================== *)
(** ** Messages: [t(key, vars)]                                        *)
(* ================================================================== *)

(** the class [\w] *)
Definition is_word_char (c : ascii) : bool :=
  let n := code c in
  (((97 <=? n) && (n <=? 122)) || ((65 <=? n) && (n <=? 90)) ||
   ((48 <=? n) && (n <=? 57)) || (n =? 95))%N.

Definition is_char (n : N) (c : ascii) : bool := (code c =? n)%N.

(** [template.replace(/\{(\w+)\}/g, (match, k) => vars[k] !== undefined ?
    String(vars[k]) : match)], read from the left.  [vars k] is
    [String(vars[k])] when [vars[k]] is defined.  [pending] holds the word
    characters read since an opening brace that may still start a
    placeholder. *)
Fixpoint replaceVars (vars : jsstring -> option jsstring)
    (pending : option jsstring) (template : jsstring) : jsstring :=
  match template with
  | [] =>
    match pending with
    | Some name => "{"%char :: name
    | None => []
    end
  | c :: rest =>
    match pending with
    | None =>
      if is_char 123 c then replaceVars vars (Some []) rest
      else c :: replaceVars vars None rest
    | Some name =>
      if is_word_char c then replaceVars vars (Some (name ++ [c])) rest
      else if is_char 125 c && truthy name then
        match vars name with
        | Some value => value
        | None => "{"%char :: name ++ [c]
        end ++ replaceVars vars None rest
      else
        "{"%char :: name ++
        (if is_char 123 c then replaceVars vars (Some []) rest
         else c :: replaceVars vars None rest)
    end
  end.

(** What reading a property of a translation table gives: nothing; an
    entry of the table, which is a string; or a value that is not a string,
    for a name such as [constructor] that the table, an object literal,
    inherits from [Object.prototype]. *)
Inductive property :=
| Undefined
| Text (s : jsstring)
| NotText.

(** [t]: the entry of the current language, else the English one, else
    the key, with its placeholders replaced.  The two tables are the
    entries of [translations] for the current language and for [en].
    [None] stands for the TypeError that [template.replace] raises on a
    template that is not a string. *)
Module i18n.
Definition t (dict fallback : jsstring -> property)
    (key : jsstring) (vars : jsstring -> option jsstring)
    : option jsstring :=
  let template :=
    match dict key with
    | Undefined =>
      match fallback key with
      | Undefined => Text key
      | found => found
      end
    | found => found
    end in
  match template with
  | Text s => Some (replaceVars vars None s)
  | _ => None
  end.
End i18n.

(* ================================================================== *)
(** ** Settings tab                                                    *)
(* ================================================================== *)

(** The [onChange] handlers of the four tuning fields, from [num =
    Number(value)] to the value stored in [settings]. *)
Definition onChange_chunkMs (num : number) : number :=
  if isFinite num && num_gt num (Finite 500) then num else Finite 4000.

Definition onChange_silenceThreshold (num : number) : number :=
  if isFinite num && num_ge num (Finite 0) then num else Finite (15 # 10000).

Definition onChange_maxBufferedChunks (num : number) : number :=
  match num with
  | Finite q =>
    if num_gt num (Finite 0) then Finite (inject_Z (Math_round q))
    else Finite 12
  | _ => Finite 12
  end.

Definition onChange_maxConsecutiveWordRepeats (num : number) : number :=
  match num with
  | Finite q =>
    if num_ge num (Finite 1) then Finite (inject_Z (Math_round q))
    else Finite 2
  | _ => Finite 2
  end.

(* ================================================================== *)
(** ** Properties of the sample queue                                  *)
(* ================================================================== *)

Section SampleQueueFacts.

Context {sample : Type} (zero : sample).

Implicit Types (out src buffer : block sample) (buffers : list (block sample)).
Implicit Types (q : queue sample).

Lemma array_set_nil out offset : array_set out [] offset = out.
Proof.
  unfold array_set. simpl. rewrite Nat.add_0_r. apply firstn_skipn.
Qed.

Lemma array_set_length out src offset :
  (offset + List.length src <= List.length out)%nat ->
  List.length (array_set out src offset) = List.length out.
Proof.
  intros H. unfold array_set.
  rewrite !length_app, firstn_length_le, length_skipn by lia. lia.
Qed.

(** two adjacent writes are one write of the concatenation *)
Lemma array_set_app out a b offset :
  (offset + List.length a <= List.length out)%nat ->
  array_set (array_set out a offset) b (offset + List.length a) =
  array_set out (a ++ b) offset.
Proof.
  intros H. unfold array_set.
  set (X := firstn offset out). set (Y := skipn (offset + List.length a) out).
  assert (HX : List.length (X ++ a) = (offset + List.length a)%nat).
  { unfold X. rewrite length_app, firstn_length_le; lia. }
  assert (E1 : firstn (offset + List.length a) (X ++ a ++ Y) = X ++ a).
  { rewrite app_assoc, <- HX, <- (Nat.add_0_r (List.length (X ++ a))).
    rewrite firstn_app_2. simpl. apply app_nil_r. }
  assert (E2 : skipn (offset + List.length a + List.length b) (X ++ a ++ Y) =
               skipn (offset + List.length (a ++ b)) out).
  { rewrite app_assoc, skipn_app, HX.
    rewrite skipn_all2 by lia. simpl. unfold Y.
    rewrite skipn_skipn, length_app. f_equal. lia. }
  rewrite E1, E2, <- !app_assoc. reflexivity.
Qed.

(** From the front of a zero-filled array: the samples, then the zeros
    that were not overwritten. *)
Lemma array_set_fresh src count :
  (List.length src <= count)%nat ->
  array_set (repeat zero count) src 0 =
  src ++ repeat zero (count - List.length src).
Proof.
  intros H. unfold array_set. simpl. f_equal.
  replace count with (List.length src + (count - List.length src))%nat at 1 by lia.
  rewrite repeat_app, skipn_app, repeat_length, Nat.sub_diag.
  rewrite skipn_all2 by (rewrite repeat_length; lia).
  reflexivity.
Qed.

(** The loop copies the next [count - offset] queued samples to [out] at
    [offset] and leaves the samples after them in the queue. *)
Lemma takeLoop_spec count buffers : forall offset out,
  List.length out = count -> (offset <= count)%nat ->
  fst (takeLoop count buffers offset out) =
    array_set out (firstn (count - offset) (concat buffers)) offset /\
  concat (snd (takeLoop count buffers offset out)) =
    skipn (count - offset) (concat buffers).
Proof.
  induction buffers as [|buffer rest IH]; intros offset out Hlen Hoff; simpl.
  - rewrite firstn_nil, skipn_nil, array_set_nil. auto.
  - destruct (Nat.ltb_spec offset count) as [Hlt|Hge].
    + destruct (Nat.leb_spec (List.length buffer) (count - offset)) as [Hfit|Hbig].
      * destruct (IH (offset + List.length buffer)%nat (array_set out buffer offset))
          as [IH1 IH2]; [rewrite array_set_length; lia | lia |].
        rewrite IH1, IH2. split.
        -- rewrite array_set_app by lia. f_equal.
           rewrite firstn_app, (firstn_all2 buffer) by lia.
           do 2 f_equal. lia.
        -- rewrite skipn_app, (skipn_all2 buffer) by lia. simpl.
           f_equal. lia.
      * simpl. split.
        -- rewrite firstn_app.
           replace (count - offset - List.length buffer)%nat with 0%nat by lia.
           rewrite firstn_O, app_nil_r. reflexivity.
        -- rewrite skipn_app.
           replace (count - offset - List.length buffer)%nat with 0%nat by lia.
           reflexivity.
    + replace (count - offset)%nat with 0%nat by lia. simpl.
      rewrite array_set_nil. auto.
Qed.

(** When the boundary falls strictly inside a block, that block is
    replaced by its back part and the blocks after it are untouched. *)
Lemma takeLoop_split count (post : list (block sample)) (b : block sample) :
  forall (pre : list (block sample)) offset out,
  (offset + List.length (concat pre) < count)%nat ->
  (count < offset + List.length (concat pre) + List.length b)%nat ->
  snd (takeLoop count (pre ++ b :: post) offset out) =
  skipn (count - offset - List.length (concat pre)) b :: post.
Proof.
  induction pre as [|p pre IH]; intros offset out Hlo Hhi; simpl in *.
  - destruct (Nat.ltb_spec offset count); [|lia].
    destruct (Nat.leb_spec (List.length b) (count - offset)); [lia|].
    simpl. do 2 f_equal. lia.
  - rewrite length_app in Hlo, Hhi.
    destruct (Nat.ltb_spec offset count); [|lia].
    destruct (Nat.leb_spec (List.length p) (count - offset)); [|lia].
    rewrite IH by lia. rewrite length_app. do 2 f_equal. lia.
Qed.

(** When the queue holds fewer than [count - offset] samples the loop
    empties it. *)
Lemma takeLoop_drain count buffers : forall offset out,
  (offset + List.length (concat buffers) < count)%nat ->
  snd (takeLoop count buffers offset out) = [].
Proof.
  induction buffers as [|buffer rest IH]; intros offset out H; simpl in *.
  - reflexivity.
  - rewrite length_app in H.
    destruct (Nat.ltb_spec offset count); [|lia].
    destruct (Nat.leb_spec (List.length buffer) (count - offset)); [|lia].
    apply IH. lia.
Qed.

Lemma takeSamples_out count q :
  fst (takeSamples zero count q) =
  array_set (repeat zero count) (firstn count (concat (sampleBuffers q))) 0.
Proof.
  unfold takeSamples.
  destruct (takeLoop_spec count (sampleBuffers q) 0 (repeat zero count))
    as [H _]; [apply repeat_length | lia |].
  destruct (takeLoop count (sampleBuffers q) 0 (repeat zero count)) as [out bs].
  simpl in *. rewrite H, Nat.sub_0_r. reflexivity.
Qed.

Lemma takeSamples_rest count q :
  concat (sampleBuffers (snd (takeSamples zero count q))) =
  skipn count (concat (sampleBuffers q)).
Proof.
  unfold takeSamples.
  destruct (takeLoop_spec count (sampleBuffers q) 0 (repeat zero count))
    as [_ H]; [apply repeat_length | lia |].
  destruct (takeLoop count (sampleBuffers q) 0 (repeat zero count)) as [out bs].
  simpl in *. rewrite H, Nat.sub_0_r. reflexivity.
Qed.

Lemma takeSamples_count count q :
  samplesCollected (snd (takeSamples zero count q)) =
  samplesCollected q - Z.of_nat count.
Proof.
  unfold takeSamples.
  destruct (takeLoop count (sampleBuffers q) 0 (repeat zero count)).
  reflexivity.
Qed.

Lemma takeSamples_buffers count q :
  sampleBuffers (snd (takeSamples zero count q)) =
  snd (takeLoop count (sampleBuffers q) 0 (repeat zero count)).
Proof.
  unfold takeSamples.
  destruct (takeLoop count (sampleBuffers q) 0 (repeat zero count)).
  reflexivity.
Qed.

Lemma takeSamples_wf count q :
  queue_wf q -> Z.of_nat count <= samplesCollected q ->
  queue_wf (snd (takeSamples zero count q)).
Proof.
  unfold queue_wf. intros Hwf Hav.
  rewrite takeSamples_count, takeSamples_rest, length_skipn. lia.
Qed.

(** *** Discarding *)

Lemma discardLoop_spec buffers : forall remaining,
  concat (discardLoop buffers remaining) =
  skipn (Z.to_nat remaining) (concat buffers).
Proof.
  induction buffers as [|buffer rest IH]; intros remaining; simpl.
  - now rewrite skipn_nil.
  - destruct (Z.ltb_spec 0 remaining) as [Hpos|Hnon].
    + destruct (Z.leb_spec (Z.of_nat (List.length buffer)) remaining) as [Hfit|Hbig].
      * rewrite IH, skipn_app, (skipn_all2 buffer) by lia. simpl.
        f_equal. lia.
      * simpl. rewrite skipn_app.
        replace (Z.to_nat remaining - List.length buffer)%nat with 0%nat by lia.
        reflexivity.
    + replace (Z.to_nat remaining) with 0%nat by lia. reflexivity.
Qed.

Lemma discardLoop_split (post : list (block sample)) (b : block sample) :
  forall (pre : list (block sample)) remaining,
  Z.of_nat (List.length (concat pre)) < remaining ->
  remaining < Z.of_nat (List.length (concat pre) + List.length b) ->
  discardLoop (pre ++ b :: post) remaining =
  skipn (Z.to_nat remaining - List.length (concat pre)) b :: post.
Proof.
  induction pre as [|p pre IH]; intros remaining Hlo Hhi; simpl in *.
  - destruct (Z.ltb_spec 0 remaining); [|lia].
    destruct (Z.leb_spec (Z.of_nat (List.length b)) remaining); [lia|].
    do 2 f_equal. lia.
  - rewrite length_app in Hlo, Hhi.
    destruct (Z.ltb_spec 0 remaining); [|lia].
    destruct (Z.leb_spec (Z.of_nat (List.length p)) remaining); [|lia].
    rewrite IH by lia. rewrite length_app. do 2 f_equal. lia.
Qed.

Lemma discardSamples_wf count q :
  queue_wf q -> 0 <= count -> queue_wf (discardSamples count q).
Proof.
  unfold queue_wf, discardSamples. simpl. intros Hwf Hc.
  rewrite discardLoop_spec, length_skipn. lia.
Qed.

Lemma trimBacklog_wf mbc spc q :
  queue_wf q -> queue_wf (fst (trimBacklog mbc spc q)).
Proof.
  intros Hwf. unfold trimBacklog.
  destruct (Z.leb_spec (samplesCollected q) (spc * mbc)); simpl; auto.
  apply discardSamples_wf; auto. lia.
Qed.

(** whatever is trimmed, what stays queued is a back part of what was
    queued *)
Lemma trimBacklog_suffix mbc spc q :
  exists d, concat (sampleBuffers (fst (trimBacklog mbc spc q))) =
            skipn d (concat (sampleBuffers q)).
Proof.
  unfold trimBacklog.
  destruct (Z.leb_spec (samplesCollected q) (spc * mbc)); simpl.
  - now exists 0%nat.
  - eexists. apply discardLoop_spec.
Qed.

Lemma push_wf clone q : queue_wf q -> queue_wf (push clone q).
Proof.
  unfold queue_wf, push. simpl. intros ->.
  rewrite concat_app, !length_app. simpl. rewrite app_nil_r. lia.
Qed.

Lemma push_concat clone q :
  concat (sampleBuffers (push clone q)) = concat (sampleBuffers q) ++ clone.
Proof.
  unfold push. simpl. rewrite concat_app. simpl. now rewrite app_nil_r.
Qed.

Lemma arriveAll_wf mbc spc blocks : forall q,
  queue_wf q -> queue_wf (arriveAll mbc spc blocks q).
Proof.
  induction blocks as [|b blocks IH]; intros q Hwf; simpl; auto.
  apply IH. unfold arrive. apply trimBacklog_wf, push_wf, Hwf.
Qed.

Lemma arriveAll_suffix mbc spc blocks : forall q,
  exists front,
    concat (sampleBuffers q) ++ concat blocks =
    front ++ concat (sampleBuffers (arriveAll mbc spc blocks q)).
Proof.
  induction blocks as [|b blocks IH]; intros q; simpl.
  - exists []. now rewrite app_nil_r.
  - destruct (IH (arrive mbc spc b q)) as [front Hfront].
    unfold arrive in *.
    destruct (trimBacklog_suffix mbc spc (push b q)) as [d Hd].
    rewrite Hd, push_concat in Hfront.
    exists (firstn d (concat (sampleBuffers q) ++ b) ++ front).
    rewrite <- app_assoc, <- Hfront, !app_assoc. f_equal.
    symmetry. apply firstn_skipn.
Qed.

Lemma available_sum counts : forall q,
  queue_wf q -> available zero counts q ->
  Z.of_nat (list_sum counts) <= samplesCollected q.
Proof.
  induction counts as [|n counts IH]; intros q Hwf; simpl.
  - unfold queue_wf in Hwf. lia.
  - intros [Hn Hrest].
    specialize (IH _ (takeSamples_wf n q Hwf Hn) Hrest).
    rewrite takeSamples_count in IH. lia.
Qed.

Lemma takeAll_firstn counts : forall q,
  queue_wf q -> available zero counts q ->
  concat (fst (takeAll zero counts q)) =
  firstn (list_sum counts) (concat (sampleBuffers q)).
Proof.
  induction counts as [|n counts IH]; intros q Hwf Hav; simpl.
  - reflexivity.
  - destruct Hav as [Hn Hrest].
    pose proof (takeSamples_out n q) as Hout.
    pose proof (takeSamples_rest n q) as Hq1.
    pose proof (takeSamples_wf n q Hwf Hn) as Hwf1.
    destruct (takeSamples zero n q) as [out q1]. simpl in *.
    specialize (IH q1 Hwf1 Hrest).
    destruct (takeAll zero counts q1) as [outs q2]. simpl in *.
    rewrite IH, Hq1, Hout.
    unfold queue_wf in Hwf.
    rewrite array_set_fresh by (rewrite length_firstn; lia).
    rewrite firstn_length_le by lia.
    rewrite Nat.sub_diag. simpl. rewrite app_nil_r.
    set (all := concat (sampleBuffers q)) in *.
    assert (Hf : List.length (firstn n all) = n) by (apply firstn_length_le; lia).
    transitivity (firstn (List.length (firstn n all) + list_sum counts)
                         (firstn n all ++ skipn n all)).
    + now rewrite firstn_app_2.
    + now rewrite Hf, firstn_skipn.
Qed.

End SampleQueueFacts.

(** C6 (as the code has it).  On a queue whose running count is the number
    of queued samples: when [count] samples are available, [takeSamples]
    returns exactly the first [count] queued samples in order, leaves the
    samples after them queued, replaces the block the boundary falls in by
    its back part, and lowers the running count by [count]; when fewer are
    available it does not fail: it returns an array of [count] samples, the
    queued samples followed by zeros, and leaves the queue without blocks. *)
Theorem takeSamples_front_or_padded :
  forall (sample : Type) (zero : sample) (count : nat) (q : queue sample),
  queue_wf q ->
  let all := concat (sampleBuffers q) in
  let out := fst (takeSamples zero count q) in
  let q' := snd (takeSamples zero count q) in
  List.length out = count /\
  (Z.of_nat count <= samplesCollected q ->
     out = firstn count all /\
     concat (sampleBuffers q') = skipn count all /\
     samplesCollected q' = samplesCollected q - Z.of_nat count /\
     queue_wf q' /\
     forall pre b post,
       sampleBuffers q = pre ++ b :: post ->
       (List.length (concat pre) < count < List.length (concat pre) + List.length b)%nat ->
       sampleBuffers q' = skipn (count - List.length (concat pre)) b :: post) /\
  (samplesCollected q < Z.of_nat count ->
     out = all ++ repeat zero (count - List.length all) /\
     sampleBuffers q' = []).
Proof.
  intros sample zero count q Hwf all out q'.
  unfold queue_wf in Hwf. fold all in Hwf.
  assert (Hout : out = array_set (repeat zero count) (firstn count all) 0)
    by apply takeSamples_out.
  split.
  { rewrite Hout, array_set_length; rewrite ?repeat_length; auto.
    rewrite length_firstn. lia. }
  split.
  - intros Hav. repeat split.
    + rewrite Hout, array_set_fresh by (rewrite length_firstn; lia).
      rewrite firstn_length_le by lia.
      rewrite Nat.sub_diag. apply app_nil_r.
    + apply takeSamples_rest.
    + apply takeSamples_count.
    + apply takeSamples_wf; auto.
    + intros pre b post Hq Hin. subst q'.
      rewrite takeSamples_buffers, Hq.
      rewrite takeLoop_split by lia. do 2 f_equal. lia.
  - intros Hshort. split.
    + rewrite Hout, firstn_all2 by lia.
      apply array_set_fresh. lia.
    + subst q'. rewrite takeSamples_buffers.
      apply takeLoop_drain. fold all. lia.
Qed.

Lemma takeSamples_front_or_padded_witness :
  let q := mkQueue [[1; 2; 3]; [4; 5]]%nat 5 in
  queue_wf q /\
  fst (takeSamples 0%nat 4 q) = [1; 2; 3; 4]%nat /\
  sampleBuffers (snd (takeSamples 0%nat 4 q)) = [[5%nat]].
Proof.
  intros q.
  assert (Hwf : queue_wf q) by reflexivity.
  destruct (takeSamples_front_or_padded nat 0%nat 4 q Hwf)
    as (_ & Hav & _).
  destruct Hav as (Hout & _ & _ & _ & Hsplit); [simpl; lia|].
  split; [exact Hwf|]. split; [exact Hout|].
  apply (Hsplit [[1; 2; 3]%nat] [4; 5]%nat []); [reflexivity | simpl; lia].
Defined.

(** C6 (as stated, refuted).  With one sample queued, [takeSamples(2)] is
    a normal return of a zero-padded array that leaves the running count
    at -1, where the specification has the call fail with
    [InsufficientData]. *)
Lemma takeSamples_short_returns :
  let q := mkQueue [[7%nat]] 1 in
  queue_wf q /\ samplesCollected q < 2 /\
  takeSamples 0%nat 2 q = ([7; 0]%nat, mkQueue [] (-1)) /\
  take_stated 0%nat 2 q = inl InsufficientData /\
  inr (takeSamples 0%nat 2 q) <> take_stated 0%nat 2 q.
Proof.
  cbv zeta. repeat split; try reflexivity. discriminate.
Qed.

(** C7.  Blocks that arrive in an empty queue and are then taken back in
    the same total amount, by any series of [takeSamples] calls each made
    with enough samples available, come back as the concatenation of the
    blocks: the order is kept across block splits. *)
Theorem takeAll_fifo :
  forall (sample : Type) (zero : sample) (maxBufferedChunks samplesPerChunk : Z)
         (blocks : list (block sample)) (counts : list nat),
  let q := arriveAll maxBufferedChunks samplesPerChunk blocks emptyQueue in
  list_sum counts = List.length (concat blocks) ->
  available zero counts q ->
  concat (fst (takeAll zero counts q)) = concat blocks /\
  samplesCollected (snd (takeAll zero counts q)) = 0.
Proof.
  intros sample zero mbc spc blocks counts q Hsum Hav.
  assert (Hwf : queue_wf q) by (apply arriveAll_wf; reflexivity).
  destruct (arriveAll_suffix mbc spc blocks (@emptyQueue sample))
    as [front Hfront].
  fold q in Hfront. simpl in Hfront.
  pose proof (available_sum zero counts q Hwf Hav) as Hle.
  unfold queue_wf in Hwf.
  assert (Hnil : front = []).
  { apply (f_equal (@List.length sample)) in Hfront.
    rewrite length_app in Hfront.
    apply length_zero_iff_nil. lia. }
  subst front. simpl in Hfront.
  split.
  - rewrite takeAll_firstn; auto.
    rewrite <- Hfront. apply firstn_all2. lia.
  - assert (Hgen : forall cs (q0 : queue sample),
      samplesCollected (snd (takeAll zero cs q0)) =
      samplesCollected q0 - Z.of_nat (list_sum cs)).
    { induction cs as [|n cs IH]; intros q0; simpl; [lia|].
      pose proof (takeSamples_count zero n q0) as Hc.
      destruct (takeSamples zero n q0) as [o q1]. simpl in Hc.
      specialize (IH q1).
      destruct (takeAll zero cs q1) as [os q2]. simpl in *. lia. }
    rewrite Hgen, Hwf, <- Hfront.
    lia.
Qed.

Lemma takeAll_fifo_witness :
  let blocks := [[1; 2; 3]; [4; 5]; [6]]%nat in
  let counts := [2; 3; 1]%nat in
  concat (fst (takeAll 0%nat counts (arriveAll 12 4 blocks emptyQueue))) =
    [1; 2; 3; 4; 5; 6]%nat /\
  samplesCollected (snd (takeAll 0%nat counts (arriveAll 12 4 blocks emptyQueue))) = 0.
Proof.
  intros blocks counts.
  apply (takeAll_fifo nat 0%nat 12 4 blocks counts).
  - reflexivity.
  - simpl. repeat split; lia.
Defined.

(** [trimBacklog] with a bound that is not negative *)
Lemma trimBacklog_spec
  (sample : Type) (maxBufferedChunks samplesPerChunk : Z) (q : queue sample) :
  queue_wf q ->
  0 <= samplesPerChunk -> 0 <= maxBufferedChunks ->
  let maxSamples := samplesPerChunk * maxBufferedChunks in
  let all := concat (sampleBuffers q) in
  let q' := fst (trimBacklog maxBufferedChunks samplesPerChunk q) in
  let warned := snd (trimBacklog maxBufferedChunks samplesPerChunk q) in
  samplesCollected q' <= maxSamples /\
  queue_wf q' /\
  (samplesCollected q <= maxSamples -> q' = q /\ warned = None) /\
  (maxSamples < samplesCollected q ->
     let overflow := samplesCollected q - maxSamples in
     warned = Some overflow /\
     samplesCollected q' = maxSamples /\
     concat (sampleBuffers q') = skipn (Z.to_nat overflow) all /\
     all = firstn (Z.to_nat overflow) all ++ concat (sampleBuffers q') /\
     List.length (firstn (Z.to_nat overflow) all) = Z.to_nat overflow /\
     forall pre b post,
       sampleBuffers q = pre ++ b :: post ->
       Z.of_nat (List.length (concat pre)) < overflow
         < Z.of_nat (List.length (concat pre) + List.length b) ->
       sampleBuffers q' =
         skipn (Z.to_nat overflow - List.length (concat pre)) b :: post).
Proof.
  intros Hwf Hspc Hmbc maxSamples all q' warned.
  assert (Hmax : 0 <= maxSamples) by (apply Z.mul_nonneg_nonneg; auto).
  assert (Hwf' : queue_wf q') by (apply trimBacklog_wf; auto).
  subst q' warned. unfold trimBacklog in *. fold maxSamples in Hwf' |- *.
  destruct (Z.leb_spec (samplesCollected q) maxSamples) as [Hle|Hgt]; simpl in *.
  - repeat split; auto; lia.
  - unfold queue_wf in Hwf. fold all in Hwf.
    repeat split; auto; try lia.
    + apply discardLoop_spec.
    + rewrite discardLoop_spec. symmetry. apply firstn_skipn.
    + apply firstn_length_le. lia.
    + intros pre b post Hq [Hlo Hhi]. rewrite Hq.
      apply discardLoop_split; auto.
Qed.

(* ================================================================== *)
(** ** Properties of the string operations                             *)
(* ================================================================== *)

Lemma str_eqb_eq a : forall b, str_eqb a b = true <-> a = b.
Proof.
  induction a as [|x a IH]; intros [|y b]; simpl; split; intros H;
    try discriminate; auto.
  - apply andb_true_iff in H. destruct H as [Hxy Hab].
    apply Ascii.eqb_eq in Hxy. apply IH in Hab. congruence.
  - injection H as -> ->. rewrite Ascii.eqb_refl. apply IH. reflexivity.
Qed.

Lemma str_eqb_refl a : str_eqb a a = true.
Proof. now apply str_eqb_eq. Qed.

Lemma is_space_lower c : is_space (lower_char c) = is_space c.
Proof. destruct c as [[] [] [] [] [] [] [] []]; reflexivity. Qed.

Lemma truthy_false s : truthy s = false <-> s = [].
Proof. destruct s; simpl; split; intros; congruence. Qed.

Lemma truthy_true s : truthy s = true <-> s <> [].
Proof. destruct s; simpl; split; intros; congruence. Qed.

(** *** White space at the two ends *)

Lemma trimStart_ws_free p : ws_free p -> trimStart p = p.
Proof.
  unfold ws_free. destruct p as [|c p]; simpl; auto.
  intros H. apply andb_true_iff in H. destruct H as [H _].
  destruct (is_space c); simpl in *; congruence.
Qed.

Lemma trimStart_all_space run z :
  forallb is_space run = true -> trimStart (run ++ z) = trimStart z.
Proof.
  induction run as [|c run IH]; simpl; auto.
  intros H. apply andb_true_iff in H. destruct H as [-> H]. auto.
Qed.

Lemma trimStart_snoc_space a c :
  is_space c = true ->
  trimStart (a ++ [c]) = match trimStart a with [] => [] | t => t ++ [c] end.
Proof.
  intros Hc. induction a as [|x a IH]; simpl.
  - now rewrite Hc.
  - destruct (is_space x); auto.
Qed.

Lemma trimStart_snoc_word a c :
  is_space c = false -> trimStart (a ++ [c]) = trimStart a ++ [c].
Proof.
  intros Hc. induction a as [|x a IH]; simpl.
  - now rewrite Hc.
  - destruct (is_space x); auto.
Qed.

(** [trimEnd] read from the front *)
Lemma trimEnd_cons c s :
  trimEnd (c :: s) =
  match trimEnd s with
  | [] => if is_space c then [] else [c]
  | t => c :: t
  end.
Proof.
  unfold trimEnd. simpl.
  destruct (is_space c) eqn:Hc.
  - rewrite trimStart_snoc_space by assumption.
    destruct (trimStart (rev s)) as [|y t] eqn:Ht; simpl; auto.
    rewrite rev_app_distr. simpl.
    destruct (rev t ++ [y]) eqn:E; auto.
    destruct (rev t); discriminate.
  - rewrite trimStart_snoc_word by assumption.
    rewrite rev_app_distr. simpl.
    destruct (rev (trimStart (rev s))); reflexivity.
Qed.

Lemma trimEnd_nil : trimEnd [] = [].
Proof. reflexivity. Qed.

Lemma trimEnd_word_app p r : ws_free p -> trimEnd (p ++ r) = p ++ trimEnd r.
Proof.
  unfold ws_free. induction p as [|c p IH]; simpl; auto.
  intros H. apply andb_true_iff in H. destruct H as [Hc Hp].
  rewrite trimEnd_cons, IH by assumption.
  destruct (is_space c); [discriminate|].
  destruct (p ++ trimEnd r); reflexivity.
Qed.

Lemma trimEnd_ws_free p : ws_free p -> trimEnd p = p.
Proof.
  intros H. rewrite <- (app_nil_r p) at 1.
  rewrite trimEnd_word_app by assumption. now rewrite trimEnd_nil, app_nil_r.
Qed.

(** *** Collapsing runs of white space *)

Lemma collapse_ws_space c z :
  is_space c = true ->
  collapse_ws (c :: z) = " "%char :: collapse_ws (trimStart z).
Proof.
  revert c. induction z as [|c' z IH]; intros c Hc; simpl; rewrite Hc.
  - reflexivity.
  - destruct (is_space c') eqn:Hc'.
    + specialize (IH c' Hc'). simpl in IH. rewrite Hc' in IH. exact IH.
    + simpl. rewrite Hc'. reflexivity.
Qed.

Lemma collapse_ws_run run z :
  is_ws_token run = true ->
  collapse_ws (run ++ z) = " "%char :: collapse_ws (trimStart z).
Proof.
  unfold is_ws_token. destruct run as [|c run]; [discriminate|].
  intros H. simpl in H. apply andb_true_iff in H. destruct H as [Hc Hrun].
  change ((c :: run) ++ z) with (c :: (run ++ z)).
  rewrite collapse_ws_space by assumption.
  now rewrite trimStart_all_space.
Qed.

Lemma collapse_ws_word p y :
  ws_free p -> collapse_ws (p ++ y) = p ++ collapse_ws y.
Proof.
  unfold ws_free. induction p as [|c p IH]; simpl; auto.
  intros H. apply andb_true_iff in H. destruct H as [Hc Hp].
  destruct (is_space c); [discriminate|]. now rewrite IH.
Qed.

Lemma trimStart_collapse_ws s :
  trimStart (collapse_ws s) = collapse_ws (trimStart s).
Proof.
  induction s as [|c s IH]; [reflexivity|].
  destruct (is_space c) eqn:Hc.
  - rewrite collapse_ws_space by assumption.
    change (trimStart (" "%char :: collapse_ws (trimStart s)))
      with (trimStart (collapse_ws (trimStart s))).
    simpl trimStart at 3. rewrite Hc.
    clear IH. induction s as [|c' s IH']; [reflexivity|].
    simpl trimStart at 2 3. destruct (is_space c') eqn:Hc'; auto.
    simpl. rewrite Hc'. simpl. now rewrite Hc'.
  - simpl. rewrite Hc. simpl. now rewrite Hc.
Qed.

(** *** Joining words *)

Lemma join_cons sep p rest :
  join sep (p :: rest) =
  match rest with [] => p | _ => p ++ sep ++ join sep rest end.
Proof. destruct rest; reflexivity. Qed.

Lemma join_truthy_nil sep ws :
  Forall (fun w => w <> []) ws -> join sep ws = [] -> ws = [].
Proof.
  intros H. destruct ws as [|w ws]; auto.
  inversion H as [|? ? Hw _]; subst.
  rewrite join_cons. destruct ws; intros E.
  - contradiction.
  - destruct w; [contradiction | discriminate].
Qed.

Lemma filter_truthy_Forall ws : Forall (fun w => w <> []) (filter truthy ws).
Proof.
  apply Forall_forall. intros w Hin. apply filter_In in Hin.
  destruct Hin as [_ Hw]. now apply truthy_true.
Qed.

(** *** The two splits *)

Lemma is_ws_token_cons c run :
  is_space c = true -> (run = [] \/ is_ws_token run = true) ->
  is_ws_token (c :: run) = true.
Proof.
  unfold is_ws_token. simpl. intros -> [->|H]; auto.
  apply andb_true_iff in H. now destruct H as [_ ->].
Qed.

Lemma split_capture_alternating s : alternating (split_capture s).
Proof.
  induction s as [|c s IH]; simpl.
  - now constructor.
  - destruct IH as [p Hp | p run rest Hp Hrun Hrest].
    + destruct (is_space c) eqn:Hc.
      * destruct p; constructor; try reflexivity;
          try (now apply is_ws_token_cons; auto); now constructor.
      * constructor. unfold ws_free in *. simpl. now rewrite Hc.
    + destruct (is_space c) eqn:Hc.
      * destruct p.
        -- constructor; [reflexivity | now apply is_ws_token_cons; auto | assumption].
        -- constructor; [reflexivity | now apply is_ws_token_cons; auto |].
           now constructor.
      * constructor; auto. unfold ws_free in *. simpl. now rewrite Hc.
Qed.

Lemma split_capture_concat s : concat (split_capture s) = s.
Proof.
  induction s as [|c s IH]; simpl; auto.
  destruct (split_capture s) as [|p rest]; simpl in *.
  - now subst.
  - destruct (is_space c).
    + destruct p as [|x p]; [destruct rest as [|run rest]|]; simpl in *; now subst.
    + simpl. now rewrite IH.
Qed.

Lemma alternating_pieces_ws_free tokens :
  alternating tokens -> Forall ws_free (pieces tokens).
Proof.
  induction 1; simpl; constructor; auto.
Qed.

Lemma split_ws_ws_free s : Forall ws_free (split_ws s).
Proof. apply alternating_pieces_ws_free, split_capture_alternating. Qed.

Lemma split_ws_not_nil s : split_ws s <> [].
Proof.
  unfold split_ws. destruct (split_capture_alternating s); simpl; discriminate.
Qed.

(** the pieces after the first are non-empty, but for the last *)
Lemma split_ws_mid_truthy s : mid_truthy (tl (split_ws s)).
Proof.
  unfold split_ws. induction s as [|c s IH]; simpl; auto.
  pose proof (split_capture_alternating s) as Halt.
  destruct Halt as [p Hp | p run rest Hp Hrun Hrest]; simpl in *.
  - destruct (is_space c); [destruct p|]; simpl; auto.
  - destruct (is_space c).
    + destruct p as [|x p]; simpl; auto.
      destruct (pieces rest) eqn:E; simpl in *.
      * destruct Hrest; discriminate.
      * split; [discriminate | assumption].
    + simpl. assumption.
Qed.

(** The split read from the left: a piece runs up to the first white
    space, the separator after it is the whole run of white space. *)
Lemma split_capture_word p x :
  ws_free p ->
  split_capture (p ++ x) =
  (p ++ hd [] (split_capture x)) :: tl (split_capture x).
Proof.
  induction p as [|c p IH]; intros Hp.
  - simpl. destruct (split_capture_alternating x); reflexivity.
  - unfold ws_free in *. simpl in Hp. apply andb_true_iff in Hp.
    destruct Hp as [Hc Hp]. apply negb_true_iff in Hc.
    simpl. rewrite (IH Hp), Hc. reflexivity.
Qed.

Lemma split_capture_head_space s run rest :
  split_capture s = [] :: run :: rest ->
  exists c s', s = c :: s' /\ is_space c = true.
Proof.
  intros E. pose proof (split_capture_concat s) as Hc.
  pose proof (split_capture_alternating s) as Halt.
  rewrite E in Hc, Halt. simpl in Hc.
  inversion Halt as [|? ? ? _ Hrun _]; subst.
  unfold is_ws_token in Hrun. destruct run as [|c run]; [discriminate|].
  simpl in Hrun. apply andb_true_iff in Hrun. destruct Hrun as [Hsp _].
  exists c, (run ++ concat rest). split; [reflexivity | exact Hsp].
Qed.

Lemma split_capture_run run r :
  is_ws_token run = true -> trimStart r = r ->
  split_capture (run ++ r) = [] :: run :: split_capture r.
Proof.
  unfold is_ws_token. intros Hrun Hr.
  destruct run as [|c run]; [discriminate|].
  simpl in Hrun. apply andb_true_iff in Hrun.
  revert c Hrun. induction run as [|c' run IH]; intros c [Hc Hrun].
  - simpl. rewrite Hc.
    destruct (split_capture r) as [|piece rest] eqn:E.
    + pose proof (split_capture_alternating r) as Halt.
      rewrite E in Halt. inversion Halt.
    + destruct piece as [|x piece]; [|reflexivity].
      destruct rest as [|run' rest']; [reflexivity|].
      apply split_capture_head_space in E.
      destruct E as (d & r' & -> & Hd).
      simpl in Hr. rewrite Hd in Hr.
      exfalso. clear - Hr.
      assert (Hlen : forall t, (List.length (trimStart t) <= List.length t)%nat).
      { induction t as [|y t IHt]; simpl; auto.
        destruct (is_space y); simpl; lia. }
      specialize (Hlen r'). rewrite Hr in Hlen. simpl in Hlen. lia.
  - simpl in Hrun. apply andb_true_iff in Hrun.
    specialize (IH c' Hrun).
    change (split_capture ((c :: c' :: run) ++ r))
      with (match split_capture ((c' :: run) ++ r) with
            | piece :: rest =>
              if is_space c then
                match piece, rest with
                | [], run0 :: rest' => [] :: (c :: run0) :: rest'
                | _, _ => [] :: [c] :: piece :: rest
                end
              else (c :: piece) :: rest
            | [] => [[c]]
            end).
    rewrite IH, Hc. reflexivity.
Qed.

(** White space collapsed and trimmed, a token list reads as its
    non-empty pieces with one space between them. *)
Lemma trim_collapse_alternating tokens :
  alternating tokens ->
  trim (collapse_ws (concat tokens)) =
  join (str " ") (filter truthy (pieces tokens)).
Proof.
  unfold trim. intros Halt. rewrite trimStart_collapse_ws.
  induction Halt as [p Hp | p run rest Hp Hrun Hrest IH].
  - simpl. rewrite app_nil_r, trimStart_ws_free by assumption.
    rewrite <- (app_nil_r p) at 1.
    rewrite collapse_ws_word, trimEnd_word_app by assumption.
    simpl. rewrite app_nil_r. destruct p; reflexivity.
  - simpl concat. simpl pieces.
    destruct p as [|c p].
    + simpl app. simpl filter.
      unfold is_ws_token in Hrun. apply andb_true_iff in Hrun.
      rewrite trimStart_all_space by apply Hrun. exact IH.
    + assert (Hc : is_space c = false).
      { unfold ws_free in Hp. simpl in Hp. apply andb_true_iff in Hp.
        destruct Hp as [Hp _]. now destruct (is_space c). }
      change (filter truthy ((c :: p) :: pieces rest))
        with ((c :: p) :: filter truthy (pieces rest)).
      rewrite join_cons.
      simpl trimStart. rewrite Hc.
      change (c :: p ++ run ++ concat rest) with ((c :: p) ++ run ++ concat rest).
      rewrite collapse_ws_word, trimEnd_word_app by assumption.
      rewrite collapse_ws_run by assumption.
      rewrite trimEnd_cons, IH.
      destruct (filter truthy (pieces rest)) as [|w ws] eqn:E.
      * simpl. now rewrite app_nil_r.
      * destruct (join (str " ") (w :: ws)) eqn:EJ; [|reflexivity].
        apply join_truthy_nil in EJ; [discriminate|].
        rewrite <- E. apply filter_truthy_Forall.
Qed.

(** *** The splits on concrete strings *)

Example split_capture_inner :
  split_capture (str "a  b") = [str "a"; str "  "; str "b"].
Proof. reflexivity. Qed.

Example split_capture_ends :
  split_capture (str " a b ") =
  [[]; str " "; str "a"; str " "; str "b"; str " "; []].
Proof. reflexivity. Qed.

Example split_ws_ends : split_ws (str " a b ") = [[]; str "a"; str "b"; []].
Proof. reflexivity. Qed.

Example split_ws_empty : split_ws [] = [[]].
Proof. reflexivity. Qed.

Example collapse_ws_runs :
  collapse_ws (str "  a   b ") = str " a b ".
Proof. reflexivity. Qed.

Example trim_both : trim (str "  a b  ") = str "a b".
Proof. reflexivity. Qed.

Example normalize_word : normalize (str "Hello,") = str "hello".
Proof. reflexivity. Qed.
(* ================================================================== *)
(** ** Properties of [dedupeConsecutiveWords]                          *)
(* ================================================================== *)

Lemma ws_free_not_ws_token p : ws_free p -> is_ws_token p = false.
Proof.
  unfold ws_free, is_ws_token. destruct p as [|c p]; simpl; auto.
  intros H. apply andb_true_iff in H. destruct H as [H _].
  destruct (is_space c); [discriminate | reflexivity].
Qed.

Lemma repeat_index_ext w w' before :
  normalize w = normalize w' -> repeat_index w before = repeat_index w' before.
Proof.
  intros E. induction before as [|p before IH]; simpl; auto.
  rewrite E, IH. reflexivity.
Qed.

(** a piece: the test of the loop is the test of [emitted] *)
Lemma dedupe_step_piece maxRepeats st before p :
  ws_free p -> tracks st before ->
  tracks (dedupe_step maxRepeats st p) (p :: before) /\
  concat (output (dedupe_step maxRepeats st p)) =
  concat (output st) ++ (if emitted maxRepeats p before then p else []).
Proof.
  intros Hp Htr. unfold dedupe_step, emitted.
  rewrite (ws_free_not_ws_token p Hp).
  destruct before as [|q before]; simpl in Htr |- *; destruct Htr as [Hlw Hrc].
  - rewrite Hlw.
    assert (E : truthy (normalize p) && str_eqb (normalize p) [] = false).
    { destruct (normalize p); reflexivity. }
    rewrite E. simpl. rewrite concat_app. simpl. rewrite app_nil_r. auto.
  - rewrite Hlw.
    destruct (truthy (normalize p) && str_eqb (normalize p) (normalize q)) eqn:E.
    + assert (En : normalize p = normalize q).
      { apply andb_true_iff in E. now apply str_eqb_eq. }
      rewrite Z.geb_leb, Hrc.
      rewrite (repeat_index_ext q p before) by auto.
      replace (Z.of_nat (repeat_index p before) + 1)
        with (Z.of_nat (S (repeat_index p before))) by lia.
      destruct (maxRepeats <=? Z.of_nat (S (repeat_index p before))); simpl.
      * rewrite app_nil_r. repeat split; auto.
      * rewrite concat_app. simpl. rewrite app_nil_r. repeat split; auto.
    + simpl. rewrite concat_app. simpl. rewrite app_nil_r. auto.
Qed.

Lemma dedupe_step_run maxRepeats st before run :
  is_ws_token run = true -> tracks st before ->
  tracks (dedupe_step maxRepeats st run) before /\
  concat (output (dedupe_step maxRepeats st run)) = concat (output st) ++ run.
Proof.
  intros Hrun Htr. unfold dedupe_step. rewrite Hrun. simpl.
  rewrite concat_app. simpl. rewrite app_nil_r. split; auto.
Qed.

(** the text the loop builds is the tokens with the dropped pieces blanked *)
Lemma dedupe_loop_blank maxRepeats tokens :
  alternating tokens -> forall st before, tracks st before ->
  concat (output (fold_left (dedupe_step maxRepeats) tokens st)) =
  concat (output st) ++ concat (blank maxRepeats before tokens).
Proof.
  induction 1 as [p Hp | p run rest Hp Hrun Hrest IH]; intros st before Htr.
  - simpl. rewrite app_nil_r.
    now destruct (dedupe_step_piece maxRepeats st before p Hp Htr).
  - simpl fold_left.
    destruct (dedupe_step_piece maxRepeats st before p Hp Htr) as [Htr1 Hout1].
    destruct (dedupe_step_run maxRepeats _ _ run Hrun Htr1) as [Htr2 Hout2].
    rewrite (IH _ _ Htr2), Hout2, Hout1.
    simpl. now rewrite <- !app_assoc.
Qed.

Lemma blank_alternating maxRepeats tokens :
  alternating tokens -> forall before,
  alternating (blank maxRepeats before tokens).
Proof.
  induction 1 as [p Hp | p run rest Hp Hrun Hrest IH]; intros before; simpl.
  - constructor. now destruct (emitted maxRepeats p before).
  - constructor; auto. now destruct (emitted maxRepeats p before).
Qed.

Lemma blank_pieces maxRepeats tokens :
  alternating tokens -> forall before,
  filter truthy (pieces (blank maxRepeats before tokens)) =
  filter truthy (kept_from maxRepeats before (pieces tokens)).
Proof.
  induction 1 as [p Hp | p run rest Hp Hrun Hrest IH]; intros before; simpl.
  - destruct (emitted maxRepeats p before); reflexivity.
  - rewrite filter_app, <- IH.
    destruct (emitted maxRepeats p before); simpl;
      destruct (truthy p); reflexivity.
Qed.

(** *** Empty pieces do not matter *)

Lemma repeat_index_far_empty w before :
  repeat_index w (before ++ [[]]) = repeat_index w before.
Proof.
  induction before as [|p before IH]; simpl.
  - unfold normalize at 3. simpl. destruct (normalize w); reflexivity.
  - now rewrite IH.
Qed.

Lemma kept_from_far_empty maxRepeats ws : forall before : list jsstring,
  kept_from maxRepeats (before ++ [[]]) ws = kept_from maxRepeats before ws.
Proof.
  induction ws as [|w ws IH]; intros before; simpl; auto.
  unfold emitted. rewrite repeat_index_far_empty.
  f_equal. apply (IH (w :: before)).
Qed.

Lemma kept_from_mid_truthy maxRepeats ws : forall before,
  mid_truthy ws ->
  filter truthy (kept_from maxRepeats before ws) =
  kept_from maxRepeats before (filter truthy ws).
Proof.
  induction ws as [|w ws IH]; intros before Hmid; simpl; auto.
  rewrite filter_app.
  destruct ws as [|w' ws].
  - simpl. destruct w; simpl.
    + destruct (emitted maxRepeats [] before); reflexivity.
    + destruct (emitted maxRepeats (a :: w) before); reflexivity.
  - destruct Hmid as [Hw Hmid].
    rewrite (IH (w :: before) Hmid).
    destruct w as [|c w]; [contradiction|]. simpl truthy. cbv iota.
    change (kept_from maxRepeats before ((c :: w) :: filter truthy (w' :: ws)))
      with ((if emitted maxRepeats (c :: w) before then [c :: w] else []) ++
            kept_from maxRepeats ((c :: w) :: before) (filter truthy (w' :: ws))).
    f_equal. destruct (emitted maxRepeats (c :: w) before); reflexivity.
Qed.

Lemma kept_words_split_ws maxRepeats s :
  filter truthy (kept_from maxRepeats [] (split_ws s)) =
  kept_words maxRepeats (words s).
Proof.
  unfold kept_words, words.
  pose proof (split_ws_mid_truthy s) as Hmid.
  destruct (split_ws s) as [|p rest] eqn:E; [reflexivity|].
  simpl in Hmid.
  destruct p as [|c p].
  - change (filter truthy (kept_from maxRepeats ([] ++ [[]]) rest) =
            kept_from maxRepeats [] (filter truthy rest)).
    rewrite kept_from_far_empty. now apply kept_from_mid_truthy.
  - destruct rest as [|w rest].
    + reflexivity.
    + apply (kept_from_mid_truthy maxRepeats ((c :: p) :: w :: rest) []).
      simpl. split; [discriminate | exact Hmid].
Qed.

(** The output is the emitted words with one space between them. *)
Lemma dedupe_kept_words maxRepeats text :
  dedupeConsecutiveWords maxRepeats text =
  join (str " ") (kept_words maxRepeats (words text)).
Proof.
  rewrite <- kept_words_split_ws.
  unfold dedupeConsecutiveWords. destruct text as [|c text]; [reflexivity|].
  simpl negb. cbv iota.
  pose proof (split_capture_alternating (c :: text)) as Halt.
  rewrite (dedupe_loop_blank maxRepeats _ Halt (mkDedupe [] [] 0) [])
    by (split; reflexivity).
  simpl output. simpl app.
  rewrite trim_collapse_alternating by (apply blank_alternating; assumption).
  rewrite blank_pieces by assumption. reflexivity.
Qed.

Lemma kept_from_incl maxRepeats ws : forall before w,
  In w (kept_from maxRepeats before ws) -> In w ws.
Proof.
  induction ws as [|x ws IH]; intros before w; simpl; auto.
  rewrite in_app_iff. intros [H|H].
  - destruct (emitted maxRepeats x before); simpl in H; tauto.
  - right. eapply IH, H.
Qed.

Lemma words_spec s w : In w (words s) -> ws_free w /\ w <> [].
Proof.
  unfold words. intros H. apply filter_In in H. destruct H as [Hin Ht].
  split; [|now apply truthy_true].
  pose proof (split_ws_ws_free s) as Hall.
  rewrite Forall_forall in Hall. auto.
Qed.

(** *** Words joined by single spaces *)

Lemma ws_free_cons c p : ws_free (c :: p) <-> is_space c = false /\ ws_free p.
Proof.
  unfold ws_free. simpl. rewrite andb_true_iff, negb_true_iff. reflexivity.
Qed.

Lemma no_double_space_word w r :
  ws_free w -> no_double_space r -> no_double_space (w ++ r).
Proof.
  induction w as [|c w IH]; intros Hw Hr; auto.
  apply ws_free_cons in Hw. destruct Hw as [Hc Hw].
  specialize (IH Hw Hr). simpl.
  destruct (w ++ r) eqn:E; auto.
  split; auto. intros [H _]. congruence.
Qed.

Lemma join_words_shape ws :
  (forall w, In w ws -> ws_free w /\ w <> []) ->
  (forall c, In c (join (str " ") ws) -> is_space c = true -> c = " "%char) /\
  no_double_space (join (str " ") ws) /\
  trimStart (join (str " ") ws) = join (str " ") ws /\
  trimEnd (join (str " ") ws) = join (str " ") ws.
Proof.
  induction ws as [|w ws IH]; intros Hall.
  - simpl. repeat split; auto. intros c [].
  - destruct (Hall w (or_introl eq_refl)) as [Hw Hne].
    assert (Hin : forall c, In c w -> is_space c = false).
    { intros c Hc. unfold ws_free in Hw. rewrite forallb_forall in Hw.
      apply negb_true_iff. auto. }
    destruct IH as (IHa & IHb & IHc & IHd); [intros; apply Hall; now right|].
    rewrite join_cons. destruct ws as [|w' ws].
    + repeat split.
      * intros c Hc Hs. rewrite (Hin c Hc) in Hs. discriminate.
      * rewrite <- (app_nil_r w). now apply no_double_space_word.
      * now apply trimStart_ws_free.
      * now apply trimEnd_ws_free.
    + set (J := join (str " ") (w' :: ws)) in *.
      assert (HJ : exists c r, J = c :: r /\ is_space c = false).
      { destruct (Hall w' (or_intror (or_introl eq_refl))) as [Hw' Hne'].
        destruct w' as [|c w']; [contradiction|].
        apply ws_free_cons in Hw'. destruct Hw' as [Hc _].
        unfold J. rewrite join_cons.
        destruct ws; [exists c, w' | eexists c, _]; split; auto; reflexivity. }
      destruct HJ as (c0 & r0 & EJ & Hc0).
      repeat split.
      * intros c Hc Hs. apply in_app_iff in Hc. destruct Hc as [Hc|Hc].
        -- rewrite (Hin c Hc) in Hs. discriminate.
        -- simpl in Hc. destruct Hc as [<-|Hc]; auto.
      * apply no_double_space_word; auto.
        change (str " " ++ J) with (" "%char :: J). rewrite EJ in *.
        simpl. split; auto. intros [_ H]. congruence.
      * destruct w as [|c w]; [contradiction|].
        apply ws_free_cons in Hw. simpl. now destruct Hw as [-> _].
      * rewrite trimEnd_word_app by assumption. f_equal.
        change (str " " ++ J) with (" "%char :: J).
        rewrite trimEnd_cons, IHd. rewrite EJ. reflexivity.
Qed.

(** C2 (as the code has it).  For every text and every bound of at least
    one, the output is the words of the text that are emitted, one space
    between them; a word is emitted exactly when its repeat index is below
    the bound, the repeat index being the number of words immediately
    before it, in a row, whose normalised form is the word's, and a word
    whose normalised form is empty never counting as a repeat; so a
    different word in between starts the count again.  With a bound of two,
    "go go go go" gives "go go". *)
Theorem dedupe_emits_below_bound :
  forall (maxRepeats : Z) (text : jsstring),
  1 <= maxRepeats ->
  dedupeConsecutiveWords maxRepeats text =
    join (str " ") (kept_words maxRepeats (words text)) /\
  (forall w before,
     emitted maxRepeats w before = true <->
     Z.of_nat (repeat_index w before) < maxRepeats) /\
  (forall w p before,
     repeat_index w (p :: before) =
     if truthy (normalize w) && str_eqb (normalize w) (normalize p)
     then S (repeat_index w before) else 0%nat) /\
  dedupeConsecutiveWords 2 (str "go go go go") = str "go go".
Proof.
  intros maxRepeats text Hmax. split; [apply dedupe_kept_words|].
  split; [|split; reflexivity].
  intros w before. unfold emitted.
  rewrite negb_true_iff, andb_false_iff, Nat.ltb_ge, Z.leb_gt. lia.
Qed.

Lemma dedupe_emits_below_bound_witness :
  dedupeConsecutiveWords 2 (str "No no, NO! yes yes") = str "No no, yes yes".
Proof.
  destruct (dedupe_emits_below_bound 2 (str "No no, NO! yes yes") ltac:(lia))
    as [H _].
  rewrite H. reflexivity.
Defined.

(** C2 (as stated, refuted).  The code never counts a token whose
    normalised form is empty as a repeat: with the default bound of two, the
    text "... ... ..." comes back whole, where dropping every immediate
    repeat that has reached the bound would leave "... ...". *)
Lemma dedupe_keeps_unnormalised_repeats :
  dedupeConsecutiveWords 2 (str "... ... ...") = str "... ... ..." /\
  dedupe_stated 2 (str "... ... ...") = str "... ..." /\
  dedupeConsecutiveWords 2 (str "... ... ...") <>
  dedupe_stated 2 (str "... ... ...").
Proof.
  repeat split; try reflexivity. vm_compute. discriminate.
Qed.

(** C10.  For every text and every bound, the output holds no white space
    but the space character, never two white-space characters in a row, and
    none at either end: it is the emitted words of the text, each free of
    white space, with one space between them, whatever white space
    separated them in the text. *)
Theorem dedupe_single_spaced :
  forall (maxRepeats : Z) (text : jsstring),
  single_spaced (dedupeConsecutiveWords maxRepeats text) /\
  dedupeConsecutiveWords maxRepeats text =
    join (str " ") (kept_words maxRepeats (words text)) /\
  (forall w, In w (kept_words maxRepeats (words text)) ->
     In w (words text) /\ ws_free w /\ w <> []) /\
  dedupeConsecutiveWords maxRepeats
    (" "%char :: "a"%char :: "009"%char :: "010"%char :: str "b  c ") =
    str "a b c".
Proof.
  intros maxRepeats text.
  assert (Hall : forall w, In w (kept_words maxRepeats (words text)) ->
                           ws_free w /\ w <> []).
  { intros w Hw. apply kept_from_incl in Hw. eapply words_spec, Hw. }
  destruct (join_words_shape _ Hall) as (Ha & Hb & Hc & Hd).
  split; [|split; [apply dedupe_kept_words | split]].
  - rewrite dedupe_kept_words. repeat split; auto.
    unfold trim. now rewrite Hc.
  - intros w Hw. split; [eapply kept_from_incl, Hw | now apply Hall].
  - reflexivity.
Qed.
(* ================================================================== *)
(** ** Properties of [cleanTranscript]                                 *)
(* ================================================================== *)

Lemma In_firstn {A : Type} (x : A) n l : In x (firstn n l) -> In x l.
Proof.
  intros H. rewrite <- (firstn_skipn n l). apply in_or_app. now left.
Qed.

Lemma In_skipn {A : Type} (x : A) n l : In x (skipn n l) -> In x l.
Proof.
  intros H. rewrite <- (firstn_skipn n l). apply in_or_app. now right.
Qed.

Lemma slice_last_length {A : Type} n (l : list A) :
  (n <= List.length l)%nat -> List.length (slice_last n l) = n.
Proof. intros H. unfold slice_last. rewrite length_skipn. lia. Qed.

Lemma toLowerCase_ws_free w : ws_free w -> ws_free (toLowerCase w).
Proof.
  unfold ws_free, toLowerCase. rewrite !forallb_forall.
  intros H c Hc. apply in_map_iff in Hc. destruct Hc as (x & <- & Hx).
  rewrite is_space_lower. auto.
Qed.

Lemma toLowerCase_join ws :
  toLowerCase (join (str " ") ws) = join (str " ") (map toLowerCase ws).
Proof.
  induction ws as [|w ws IH]; [reflexivity|].
  rewrite map_cons, !join_cons.
  destruct ws as [|w' ws]; [reflexivity|].
  unfold toLowerCase in *. rewrite !map_app, IH. reflexivity.
Qed.

(** a word without white space ends at the first space of a phrase *)
Lemma word_space_inj x : forall y r1 r2,
  ws_free x -> ws_free y ->
  x ++ " "%char :: r1 = y ++ " "%char :: r2 -> x = y /\ r1 = r2.
Proof.
  induction x as [|c x IH]; intros [|d y] r1 r2 Hx Hy E; simpl in E.
  - injection E as ->. auto.
  - apply ws_free_cons in Hy. destruct Hy as [Hd _].
    injection E as <- _. discriminate.
  - apply ws_free_cons in Hx. destruct Hx as [Hc _].
    injection E as -> _. discriminate.
  - apply ws_free_cons in Hx. apply ws_free_cons in Hy.
    injection E as -> E.
    destruct (IH y r1 r2) as [-> ->]; tauto.
Qed.

Lemma join_inj a : forall b,
  List.length a = List.length b ->
  Forall ws_free a -> Forall ws_free b ->
  join (str " ") a = join (str " ") b -> a = b.
Proof.
  induction a as [|x a IH]; intros [|y b] Hlen Ha Hb E;
    try discriminate; auto.
  inversion Ha as [|? ? Hx Ha']; inversion Hb as [|? ? Hy Hb']; subst.
  rewrite !join_cons in E.
  destruct a as [|x' a]; destruct b as [|y' b]; try discriminate.
  - now subst.
  - apply word_space_inj in E; auto. destruct E as [-> E].
    f_equal. apply IH; auto.
Qed.

(** The test on the two phrases is the comparison of the words, one by
    one, without regard to case. *)
Lemma phrase_test a b :
  List.length a = List.length b ->
  Forall ws_free a -> Forall ws_free b ->
  str_eqb (toLowerCase (join (str " ") a)) (toLowerCase (join (str " ") b)) = true
  <-> map toLowerCase a = map toLowerCase b.
Proof.
  intros Hlen Ha Hb. rewrite str_eqb_eq, !toLowerCase_join. split.
  - apply join_inj.
    + now rewrite !length_map.
    + apply Forall_map. eapply Forall_impl; [|exact Ha].
      apply toLowerCase_ws_free.
    + apply Forall_map. eapply Forall_impl; [|exact Hb].
      apply toLowerCase_ws_free.
  - now intros ->.
Qed.

Section Overlap.

Variable maxRepeats : Z.
Variables prevWords nextWords : list jsstring.
Variable normalizedIncoming : jsstring.
Hypothesis prev_ws_free : Forall ws_free prevWords.
Hypothesis next_ws_free : Forall ws_free nextWords.

Lemma overlap_test k :
  (k <= List.length prevWords)%nat -> (k <= List.length nextWords)%nat ->
  str_eqb (toLowerCase (join (str " ") (slice_last k prevWords)))
          (toLowerCase (join (str " ") (firstn k nextWords))) = true
  <-> overlap_matches k prevWords nextWords.
Proof.
  intros Hp Hn. apply phrase_test.
  - rewrite slice_last_length, firstn_length_le; auto.
  - apply Forall_forall. intros w Hw. apply In_skipn in Hw.
    rewrite Forall_forall in prev_ws_free. auto.
  - apply Forall_forall. intros w Hw. apply In_firstn in Hw.
    rewrite Forall_forall in next_ws_free. auto.
Qed.

Lemma overlapLoop_S k :
  overlapLoop maxRepeats prevWords nextWords normalizedIncoming (S k) =
  if str_eqb (toLowerCase (join (str " ") (slice_last (S k) prevWords)))
             (toLowerCase (join (str " ") (firstn (S k) nextWords)))
  then dedupeConsecutiveWords maxRepeats
         (join (str " ") (skipn (S k) nextWords))
  else overlapLoop maxRepeats prevWords nextWords normalizedIncoming k.
Proof. reflexivity. Qed.

(** no overlap from [k] down matches: the loop falls through *)
Lemma overlapLoop_none k :
  (k <= List.length prevWords)%nat -> (k <= List.length nextWords)%nat ->
  (forall j, (1 <= j <= k)%nat -> ~ overlap_matches j prevWords nextWords) ->
  overlapLoop maxRepeats prevWords nextWords normalizedIncoming k =
  dedupeConsecutiveWords maxRepeats normalizedIncoming.
Proof.
  induction k as [|k IH]; intros Hp Hn Hno; [reflexivity|].
  rewrite overlapLoop_S.
  pose proof (overlap_test (S k) Hp Hn) as T.
  destruct (str_eqb _ _).
  - exfalso. apply (Hno (S k)); [lia | now apply T].
  - apply IH; try lia. intros j Hj. apply Hno. lia.
Qed.

(** the loop stops at the largest overlap that matches *)
Lemma overlapLoop_largest k j :
  (k <= List.length prevWords)%nat -> (k <= List.length nextWords)%nat ->
  (1 <= j <= k)%nat -> overlap_matches j prevWords nextWords ->
  (forall i, (j < i <= k)%nat -> ~ overlap_matches i prevWords nextWords) ->
  overlapLoop maxRepeats prevWords nextWords normalizedIncoming k =
  dedupeConsecutiveWords maxRepeats (join (str " ") (skipn j nextWords)).
Proof.
  induction k as [|k IH]; intros Hp Hn Hj Hm Hno; [lia|].
  rewrite overlapLoop_S.
  pose proof (overlap_test (S k) Hp Hn) as T.
  destruct (str_eqb _ _).
  - destruct (Nat.eq_dec j (S k)) as [->|Hne]; [reflexivity|].
    exfalso. apply (Hno (S k)); [lia | now apply T].
  - destruct (Nat.eq_dec j (S k)) as [->|Hne].
    + apply T in Hm. discriminate.
    + apply IH; try lia; auto. intros i Hi. apply Hno. lia.
Qed.

End Overlap.

(** C1.  For every incoming fragment and every non-empty tail, with the
    words of the trimmed tail and of the left-trimmed fragment and [m] the
    least of 6 and the two numbers of words: if some overlap length between
    1 and [m] matches (the last [k] words of the tail are the first [k]
    words of the fragment, case apart), the result is
    [dedupeConsecutiveWords] of the fragment's words after the first [k],
    for the largest such [k]; if none matches, it is
    [dedupeConsecutiveWords] of the left-trimmed fragment.  The fragment
    "hello world" after the tail "...said hello" gives "world". *)
Theorem cleanTranscript_largest_overlap :
  forall (maxRepeats : Z) (incoming previousTail : jsstring),
  previousTail <> [] ->
  let prevWords := split_ws (trim previousTail) in
  let nextWords := split_ws (trimStart incoming) in
  let m := Nat.min 6 (Nat.min (List.length prevWords) (List.length nextWords)) in
  (forall k, (1 <= k <= m)%nat ->
     overlap_matches k prevWords nextWords ->
     (forall j, (k < j <= m)%nat -> ~ overlap_matches j prevWords nextWords) ->
     cleanTranscript maxRepeats incoming previousTail =
     dedupeConsecutiveWords maxRepeats (join (str " ") (skipn k nextWords))) /\
  ((forall k, (1 <= k <= m)%nat -> ~ overlap_matches k prevWords nextWords) ->
     cleanTranscript maxRepeats incoming previousTail =
     dedupeConsecutiveWords maxRepeats (trimStart incoming)) /\
  cleanTranscript maxRepeats (str "hello world") (str "...said hello") =
    str "world".
Proof.
  intros maxRepeats incoming previousTail Htail prevWords nextWords m.
  assert (Hprev : Forall ws_free prevWords) by apply split_ws_ws_free.
  assert (Hnext : Forall ws_free nextWords) by apply split_ws_ws_free.
  assert (Hstep : truthy incoming = true ->
    cleanTranscript maxRepeats incoming previousTail =
    overlapLoop maxRepeats prevWords nextWords (trimStart incoming) m).
  { intros Hin. unfold cleanTranscript. rewrite Hin.
    destruct previousTail; [contradiction | reflexivity]. }
  assert (Hempty : incoming = [] ->
    cleanTranscript maxRepeats incoming previousTail = [] /\
    nextWords = [[]]).
  { intros ->. split; reflexivity. }
  split; [|split].
  - intros k Hk Hmatch Hlargest.
    destruct incoming as [|c incoming].
    + destruct (Hempty eq_refl) as [-> Hn].
      subst m. rewrite Hn in *. simpl List.length in Hk.
      assert (k = 1%nat) by lia. subst k. reflexivity.
    + rewrite Hstep by reflexivity.
      apply overlapLoop_largest; auto; lia.
  - intros Hnone.
    destruct incoming as [|c incoming]; [reflexivity|].
    rewrite Hstep by reflexivity.
    apply overlapLoop_none; auto; lia.
  - reflexivity.
Qed.

Lemma cleanTranscript_largest_overlap_witness :
  cleanTranscript 2 (str "Cat SAT on the mat") (str "the cat sat") =
  str "on the mat".
Proof.
  destruct (cleanTranscript_largest_overlap 2 (str "Cat SAT on the mat")
              (str "the cat sat") ltac:(discriminate)) as [H _].
  rewrite (H 2%nat).
  - reflexivity.
  - simpl. lia.
  - reflexivity.
  - intros j Hj. simpl in Hj. assert (j = 3%nat) by lia. subst j.
    discriminate.
Defined.
(* ================================================================== *)
(** ** Properties of the tuning step                                   *)
(* ================================================================== *)

Lemma Math_round_ge_1 q : (1 <= q)%Q -> 1 <= Math_round q.
Proof.
  intros H. unfold Math_round.
  apply (Z.le_trans _ (Qfloor 1)); [reflexivity|].
  apply Qfloor_resp_le.
  apply (Qle_trans _ q); auto.
  rewrite <- (Qplus_0_r q) at 1. apply Qplus_le_r. discriminate.
Qed.

Lemma Math_round_nonneg q : (0 <= q)%Q -> 0 <= Math_round q.
Proof.
  intros H. unfold Math_round.
  apply (Z.le_trans _ (Qfloor 0)); [reflexivity|].
  apply Qfloor_resp_le.
  apply (Qle_trans _ q); auto.
  rewrite <- (Qplus_0_r q) at 1. apply Qplus_le_r. discriminate.
Qed.

(** the buffer bound set by the tuning step is never negative *)
Lemma applyTuningSettings_maxBufferedChunks s :
  0 <= maxBufferedChunks (applyTuningSettings s).
Proof.
  unfold applyTuningSettings. simpl.
  destruct (settings.maxBufferedChunks s) as [q| | |]; try lia.
  unfold num_gt, num_lt.
  destruct (Qle_bool q 0) eqn:E; simpl; [lia|].
  apply Math_round_nonneg.
  destruct (Qlt_le_dec 0 q) as [H|H]; [now apply Qlt_le_weak|].
  apply Qle_bool_iff in H. congruence.
Qed.

(** C9 (as the code has it).  For every configured
    [maxConsecutiveWordRepeats] that is below 1, or not finite, the bound
    the tuning step sets is the default, 2; a finite value of at least 1 is
    rounded; so the bound in effect is never below 1. *)
Theorem applyTuningSettings_repeats :
  forall s : settings.t,
  let x := settings.maxConsecutiveWordRepeats s in
  (forall q, x = Finite q -> (q < 1)%Q ->
     maxConsecutiveWordRepeats (applyTuningSettings s) = 2) /\
  (isFinite x = false ->
     maxConsecutiveWordRepeats (applyTuningSettings s) = 2) /\
  (forall q, x = Finite q -> (1 <= q)%Q ->
     maxConsecutiveWordRepeats (applyTuningSettings s) = Math_round q) /\
  1 <= maxConsecutiveWordRepeats (applyTuningSettings s).
Proof.
  intros s x. unfold applyTuningSettings. simpl. fold x.
  repeat split.
  - intros q -> Hq. unfold num_ge.
    destruct (Qle_bool 1 q) eqn:E; auto.
    apply Qle_bool_iff in E. exfalso. apply (Qlt_not_le _ _ Hq E).
  - destruct x; simpl; intros; congruence.
  - intros q -> Hq. unfold num_ge.
    apply Qle_bool_iff in Hq. now rewrite Hq.
  - destruct x as [q| | |]; try lia.
    unfold num_ge. destruct (Qle_bool 1 q) eqn:E; [|lia].
    apply Math_round_ge_1. now apply Qle_bool_iff.
Qed.

Lemma applyTuningSettings_repeats_witness :
  maxConsecutiveWordRepeats
    (applyTuningSettings
       (settings.mk (Finite 4000) (Finite (15 # 10000)) (Finite 12)
                    (Finite (-3)))) = 2.
Proof.
  set (s := settings.mk (Finite 4000) (Finite (15 # 10000)) (Finite 12)
                        (Finite (-3))).
  destruct (applyTuningSettings_repeats s) as [H _].
  apply (H (-3)%Q); reflexivity.
Defined.

(** C9 (as stated, refuted).  A configured value of 0 gives the bound 2,
    not 1. *)
Lemma applyTuningSettings_repeats_zero :
  let s := settings.mk (Finite 4000) (Finite (15 # 10000)) (Finite 12)
                       (Finite 0) in
  maxConsecutiveWordRepeats (applyTuningSettings s) = 2 /\
  repeats_stated (settings.maxConsecutiveWordRepeats s) = 1 /\
  maxConsecutiveWordRepeats (applyTuningSettings s) <>
  repeats_stated (settings.maxConsecutiveWordRepeats s).
Proof.
  cbv zeta. repeat split. discriminate.
Qed.

(* ================================================================== *)
(** ** The backlog bound                                               *)
(* ================================================================== *)

(** C8.  With [maxBufferedChunks] as the tuning step sets it and
    [samplesPerChunk] as the recorder computes it, on every queue whose
    running count is the number of queued samples: after [trimBacklog] the
    running count is at most [maxSamples = samplesPerChunk *
    maxBufferedChunks]; a queue within the bound is left as it is; from a
    queue over the bound exactly [count - maxSamples] samples are
    discarded, all of them from the front, the block at the boundary being
    replaced by its back part, and that amount is what the warning
    reports. *)
Theorem trimBacklog_bound :
  forall (sample : Type) (s : settings.t) (rounded : Z) (q : queue sample),
  queue_wf q ->
  let mbc := maxBufferedChunks (applyTuningSettings s) in
  let spc := samplesPerChunk rounded in
  let maxSamples := spc * mbc in
  let all := concat (sampleBuffers q) in
  let q' := fst (trimBacklog mbc spc q) in
  let warned := snd (trimBacklog mbc spc q) in
  samplesCollected q' <= maxSamples /\
  queue_wf q' /\
  (samplesCollected q <= maxSamples -> q' = q /\ warned = None) /\
  (maxSamples < samplesCollected q ->
     let overflow := samplesCollected q - maxSamples in
     warned = Some overflow /\
     samplesCollected q' = maxSamples /\
     concat (sampleBuffers q') = skipn (Z.to_nat overflow) all /\
     all = firstn (Z.to_nat overflow) all ++ concat (sampleBuffers q') /\
     List.length (firstn (Z.to_nat overflow) all) = Z.to_nat overflow /\
     forall pre b post,
       sampleBuffers q = pre ++ b :: post ->
       Z.of_nat (List.length (concat pre)) < overflow
         < Z.of_nat (List.length (concat pre) + List.length b) ->
       sampleBuffers q' =
         skipn (Z.to_nat overflow - List.length (concat pre)) b :: post).
Proof.
  intros sample s rounded q Hwf mbc spc.
  apply trimBacklog_spec.
  - exact Hwf.
  - unfold spc, samplesPerChunk. lia.
  - apply applyTuningSettings_maxBufferedChunks.
Qed.

Lemma trimBacklog_bound_witness :
  let s := settings.mk (Finite 1) (Finite (15 # 10000)) (Finite 2) (Finite 2) in
  let q := mkQueue [[1; 2; 3]; [4; 5]; [6]]%nat 6 in
  let q' := fst (trimBacklog (maxBufferedChunks (applyTuningSettings s))
                             (samplesPerChunk 2) q) in
  samplesCollected q' <= 4 /\
  sampleBuffers q' = [[3]; [4; 5]; [6]]%nat.
Proof.
  intros s q q'.
  assert (Hwf : queue_wf q) by reflexivity.
  destruct (trimBacklog_bound nat s 2 q Hwf) as (Hbound & _ & _ & Hover).
  split; [exact Hbound|].
  destruct Hover as (_ & _ & _ & _ & _ & Hsplit); [vm_compute; reflexivity|].
  apply (Hsplit [] [1; 2; 3]%nat [[4; 5]; [6]]%nat); [reflexivity | simpl; lia].
Defined.
(* ================================================================== *)
(** ** Properties of the WAV encoder                                   *)
(* ================================================================== *)

(** *** Sample conversion *)

Lemma Qmin_1_if q : Qmin 1 q = if Qle_bool 1 q then 1%Q else q.
Proof.
  destruct (Qle_bool 1 q) eqn:E.
  - apply Qle_bool_iff in E. unfold Qmin, GenericMinMax.gmin.
    destruct (1 ?= q)%Q eqn:C; auto.
    apply Qgt_alt in C. exfalso. apply (Qlt_not_le _ _ C E).
  - unfold Qmin, GenericMinMax.gmin.
    destruct (1 ?= q)%Q eqn:C; auto.
    + apply Qeq_alt in C. assert (H : (1 <= q)%Q) by (rewrite C; apply Qle_refl).
      apply Qle_bool_iff in H. congruence.
    + apply Qlt_alt in C. apply Qlt_le_weak, Qle_bool_iff in C. congruence.
Qed.

Lemma Qmax_m1_if q : Qmax (-1) q = if Qle_bool q (-1) then (-1)%Q else q.
Proof.
  destruct (Qle_bool q (-1)) eqn:E.
  - apply Qle_bool_iff in E. unfold Qmax, GenericMinMax.gmax.
    destruct (-1 ?= q)%Q eqn:C; auto.
    apply Qlt_alt in C. exfalso. apply (Qlt_not_le _ _ C E).
  - unfold Qmax, GenericMinMax.gmax.
    destruct (-1 ?= q)%Q eqn:C; auto.
    + apply Qeq_alt in C. assert (H : (q <= -1)%Q) by (rewrite <- C; apply Qle_refl).
      apply Qle_bool_iff in H. congruence.
    + apply Qgt_alt in C. apply Qlt_le_weak, Qle_bool_iff in C. congruence.
Qed.

Lemma clampQ_bounds q : (-1 <= clampQ q <= 1)%Q.
Proof.
  unfold clampQ. split.
  - apply Q.le_max_l.
  - apply Q.max_lub; [discriminate | apply Q.le_min_l].
Qed.

(** the clamp keeps the sign of the sample *)
Lemma clampQ_sign q : Qle_bool 0 (clampQ q) = Qle_bool 0 q.
Proof.
  unfold clampQ. rewrite Qmax_m1_if, Qmin_1_if.
  destruct (Qle_bool 1 q) eqn:E1.
  - simpl. symmetry. apply Qle_bool_iff. apply Qle_bool_iff in E1.
    apply (Qle_trans _ 1); auto. discriminate.
  - destruct (Qle_bool q (-1)) eqn:E2; auto.
    simpl. symmetry. destruct (Qle_bool 0 q) eqn:E3; auto.
    apply Qle_bool_iff in E2, E3. exfalso.
    assert (H : (0 <= -1)%Q) by (apply (Qle_trans _ q); auto).
    now apply H.
Qed.

Lemma Qtruncate_bounds q lo hi :
  lo <= 0 <= hi -> (inject_Z lo <= q <= inject_Z hi)%Q ->
  lo <= Qtruncate q <= hi.
Proof.
  intros Hz [Hlo Hhi]. unfold Qtruncate.
  destruct q as [n d]. unfold Qle in *. simpl in *.
  rewrite Z.mul_1_r in *.
  destruct (Z.le_gt_cases 0 n) as [Hn|Hn].
  - rewrite Z.quot_div_nonneg by lia. split.
    + apply (Z.le_trans _ 0); [lia|]. apply Z.div_pos; lia.
    + apply Z.div_le_upper_bound; lia.
  - assert (E : n = - (- n)) by lia. rewrite E, Z.quot_opp_l by lia.
    rewrite Z.quot_div_nonneg by lia.
    assert (0 <= - n / Z.pos d) by (apply Z.div_pos; lia).
    assert (- n / Z.pos d <= - lo) by (apply Z.div_le_upper_bound; lia).
    lia.
Qed.

Lemma wrap_int16_small z : -32768 <= z <= 32767 -> wrap_int16 z = z.
Proof.
  intros H. unfold wrap_int16.
  destruct (Z.le_gt_cases 0 z).
  - rewrite Z.mod_small by lia.
    destruct (Z.leb_spec 32768 z); lia.
  - replace (z mod 65536) with (z + 65536).
    + destruct (Z.leb_spec 32768 (z + 65536)); lia.
    + apply (Z.mod_unique z 65536 (-1) (z + 65536)); lia.
Qed.

Lemma scaled_bounds q :
  (inject_Z (-32768) <=
   clampQ q * (if Qle_bool 0 q then 32767 else 32768) <= inject_Z 32767)%Q.
Proof.
  pose proof (clampQ_bounds q) as [Hlo Hhi].
  pose proof (clampQ_sign q) as Hs.
  destruct (Qle_bool 0 q) eqn:E.
  - apply Qle_bool_iff in Hs. split.
    + apply (Qle_trans _ 0); [discriminate|].
      apply Qmult_le_0_compat; [assumption | discriminate].
    + setoid_replace (inject_Z 32767) with (1 * 32767)%Q by reflexivity.
      apply Qmult_le_compat_r; [assumption | discriminate].
  - assert (Hneg : (clampQ q <= 0)%Q).
    { destruct (Qlt_le_dec 0 (clampQ q)) as [H|H]; auto.
      apply Qlt_le_weak, Qle_bool_iff in H. congruence. }
    split.
    + setoid_replace (inject_Z (-32768)) with ((-1) * 32768)%Q by reflexivity.
      apply Qmult_le_compat_r; [assumption | discriminate].
    + apply (Qle_trans _ 0); [|discriminate].
      setoid_replace 0%Q with (0 * 32768)%Q by reflexivity.
      apply Qmult_le_compat_r; [assumption | discriminate].
Qed.

(** What is stored for a sample is the integer part of the clamped,
    scaled sample. *)
Lemma pcm_sample_truncated x : pcm_sample x = pcm_truncated x.
Proof.
  destruct x as [q| | |]; try reflexivity.
  unfold pcm_truncated.
  rewrite <- (wrap_int16_small (Qtruncate _))
    by (apply Qtruncate_bounds; [lia | apply scaled_bounds]).
  rewrite <- (clampQ_sign q).
  unfold pcm_sample, clampQ. rewrite Qmax_m1_if, Qmin_1_if.
  unfold Math_min, Math_max, num_lt.
  destruct (Qle_bool 1 q); simpl.
  - reflexivity.
  - destruct (Qle_bool q (-1)); simpl; [reflexivity|].
    destruct (Qle_bool 0 q); reflexivity.
Qed.

Lemma pcm_sample_range x : -32768 <= pcm_sample x <= 32767.
Proof.
  rewrite pcm_sample_truncated. destruct x as [q| | |]; simpl; try lia.
  apply Qtruncate_bounds; [lia | apply scaled_bounds].
Qed.

(** *** Bytes *)

Lemma le_bytes_length count : forall v, List.length (le_bytes count v) = count.
Proof. induction count; intros v; simpl; auto. Qed.

Lemma le_bytes2_value v :
  0 <= v < 65536 ->
  v mod 256 + 256 * ((v / 256) mod 256) = v.
Proof. intros H. Z.div_mod_to_equations. lia. Qed.

Lemma le_bytes4_value v :
  0 <= v < 4294967296 ->
  v mod 256 + 256 * ((v / 256) mod 256) +
  65536 * ((v / 256 / 256) mod 256 + 256 * ((v / 256 / 256 / 256) mod 256)) = v.
Proof. intros H. Z.div_mod_to_equations. lia. Qed.

Lemma wrap_int16_mod v :
  -32768 <= v <= 32767 -> wrap_int16 (v mod 65536) = v.
Proof.
  intros H. unfold wrap_int16. rewrite Z.mod_mod by lia.
  fold (wrap_int16 v). now apply wrap_int16_small.
Qed.

Lemma write_bytes_app (a b : bytes) offset bs :
  (offset + List.length bs <= List.length a)%nat ->
  write_bytes (a ++ b) offset bs = Some (array_set a bs offset ++ b).
Proof.
  intros H. unfold write_bytes.
  rewrite length_app.
  destruct (Nat.leb_spec (offset + List.length bs)
                         (List.length a + List.length b)); [|lia].
  f_equal. unfold array_set.
  rewrite firstn_app, skipn_app.
  replace (offset - List.length a)%nat with 0%nat by lia.
  replace (offset + List.length bs - List.length a)%nat with 0%nat by lia.
  simpl. rewrite app_nil_r, <- !app_assoc. reflexivity.
Qed.

Lemma writeString_app s : forall (a b : bytes) offset,
  (offset + List.length s <= List.length a)%nat ->
  writeString (a ++ b) offset s =
  Some (array_set a (map charCode s) offset ++ b).
Proof.
  induction s as [|c s IH]; intros a b offset H; simpl in *.
  - now rewrite array_set_nil.
  - unfold setUint8. rewrite write_bytes_app by (simpl; lia).
    rewrite IH by (rewrite array_set_length; simpl; lia).
    do 2 f_equal.
    assert (Ec : charCode c mod 2 ^ 8 mod 256 = charCode c).
    { unfold charCode. change (2 ^ 8) with 256. rewrite Z.mod_mod by lia.
      apply Z.mod_small. pose proof (N_ascii_bounded c). lia. }
    change (le_bytes 1 (charCode c mod 2 ^ 8))
      with [(charCode c mod 2 ^ 8) mod 256].
    rewrite Ec.
    replace (S offset) with (offset + List.length [charCode c])%nat
      by (simpl; lia).
    rewrite array_set_app by (simpl; lia). reflexivity.
Qed.

Lemma writePcm_app pcm : forall (a b : bytes) i,
  List.length a = (44 + i * 2)%nat ->
  List.length b = (List.length pcm * 2)%nat ->
  writePcm (a ++ b) i pcm =
  Some (a ++ concat (map (fun v => le_bytes 2 (v mod 2 ^ 16)) pcm)).
Proof.
  induction pcm as [|v pcm IH]; intros a b i Ha Hb.
  - destruct b; [reflexivity | discriminate].
  - cbn [writePcm map concat List.length] in *.
    destruct b as [|b0 [|b1 b]]; try discriminate.
    unfold setInt16, write_bytes.
    rewrite length_app, le_bytes_length.
    destruct (Nat.leb_spec (44 + i * 2 + 2)
                (List.length a + List.length (b0 :: b1 :: b)));
      [|cbn [List.length] in *; lia].
    assert (E : array_set (a ++ b0 :: b1 :: b) (le_bytes 2 (v mod 2 ^ 16))
                          (44 + i * 2) =
                (a ++ le_bytes 2 (v mod 2 ^ 16)) ++ b).
    { unfold array_set. rewrite le_bytes_length, <- Ha.
      rewrite firstn_app, Nat.sub_diag, firstn_all, firstn_O, app_nil_r.
      rewrite skipn_app, skipn_all2 by lia.
      replace (List.length a + 2 - List.length a)%nat with 2%nat by lia.
      cbn [skipn app]. now rewrite <- app_assoc. }
    rewrite E, (IH _ b (S i)).
    + now rewrite <- app_assoc.
    + rewrite length_app, le_bytes_length. lia.
    + cbn [List.length] in Hb. lia.
Qed.

Lemma header_bytes_length sampleRate n :
  List.length (header_bytes sampleRate n) = 44%nat.
Proof. reflexivity. Qed.

(** The encoder never fails; its output is the header followed by the
    samples, two bytes each. *)
Lemma encodeWav_layout samples sampleRate :
  encodeWav samples sampleRate =
  Some (header_bytes sampleRate (Z.of_nat (List.length samples)) ++
        concat (map (fun v => le_bytes 2 (v mod 2 ^ 16))
                    (map pcm_sample samples))).
Proof.
  unfold encodeWav. rewrite length_map.
  set (n := Z.of_nat (List.length samples)).
  rewrite repeat_app.
  set (body := repeat 0 (List.length samples * 2)).
  set (r := sampleRate mod 2 ^ 32).
  assert (Hr : sampleRate mod 2 ^ 32 = r) by reflexivity.
  set (r2 := (sampleRate * 2) mod 2 ^ 32).
  set (d := (n * 2) mod 2 ^ 32).
  set (f := (36 + n * 2) mod 2 ^ 32).
  unfold setUint32, setUint16.
  rewrite writeString_app by (simpl; lia).
  rewrite write_bytes_app by (rewrite le_bytes_length; simpl; lia).
  rewrite writeString_app by (simpl; lia).
  rewrite writeString_app by (simpl; lia).
  rewrite write_bytes_app by (rewrite le_bytes_length; simpl; lia).
  rewrite write_bytes_app by (rewrite le_bytes_length; simpl; lia).
  rewrite write_bytes_app by (rewrite le_bytes_length; simpl; lia).
  rewrite write_bytes_app by (rewrite le_bytes_length; simpl; lia).
  rewrite write_bytes_app by (rewrite le_bytes_length; simpl; lia).
  rewrite write_bytes_app by (rewrite le_bytes_length; simpl; lia).
  rewrite write_bytes_app by (rewrite le_bytes_length; simpl; lia).
  rewrite writeString_app by (simpl; lia).
  rewrite write_bytes_app by (rewrite le_bytes_length; simpl; lia).
  rewrite (writePcm_app _ _ body 0).
  - reflexivity.
  - reflexivity.
  - unfold body. now rewrite repeat_length, length_map.
Qed.

Lemma body_length (pcm : list Z) :
  List.length (concat (map (fun v => le_bytes 2 (v mod 2 ^ 16)) pcm)) =
  (List.length pcm * 2)%nat.
Proof.
  induction pcm as [|v pcm IH]; [reflexivity|].
  cbn [map concat]. rewrite length_app, le_bytes_length, IH.
  cbn [List.length]. lia.
Qed.

(** the two bytes of sample [i] read back as the stored value *)
Lemma getUint16_body pcm : forall (pre : bytes) i v,
  nth_error pcm i = Some v ->
  getUint16 (pre ++ concat (map (fun v => le_bytes 2 (v mod 2 ^ 16)) pcm))
            (List.length pre + i * 2) = v mod 2 ^ 16.
Proof.
  induction pcm as [|v0 pcm IH]; intros pre i v Hi.
  - destruct i; discriminate.
  - destruct i as [|i].
    + injection Hi as ->. unfold getUint16, getUint8.
      rewrite <- Nat.add_assoc, !app_nth2_plus.
      cbn [map concat le_bytes app nth Nat.mul Nat.add].
      apply le_bytes2_value. apply Z.mod_pos_bound. lia.
    + cbn [map concat]. rewrite app_assoc.
      replace (List.length pre + S i * 2)%nat
        with (List.length (pre ++ le_bytes 2 (v0 mod 2 ^ 16)) + i * 2)%nat
        by (rewrite length_app, le_bytes_length; lia).
      now apply IH.
Qed.

(** C4 (as the code has it).  For every block and every sample rate the
    encoder returns a buffer, whatever the samples; the 16-bit value
    written for a sample is the integer part, towards zero, of
    [clamp(s,-1,1) * (32768 if s < 0 else 32767)], and 0 for NaN. *)
Theorem encodeWav_samples_truncated :
  forall (samples : list number) (sampleRate : Z),
  exists view,
    encodeWav samples sampleRate = Some view /\
    forall i x, nth_error samples i = Some x ->
      getInt16 view (44 + i * 2) = pcm_truncated x /\
      (x = NaN -> getInt16 view (44 + i * 2) = 0) /\
      (forall q, x = Finite q ->
         getInt16 view (44 + i * 2) =
         Qtruncate (clampQ q * (if Qle_bool 0 q then 32767 else 32768))).
Proof.
  intros samples sampleRate. rewrite encodeWav_layout.
  eexists. split; [reflexivity|].
  intros i x Hi.
  assert (E : getInt16
                (header_bytes sampleRate (Z.of_nat (List.length samples)) ++
                 concat (map (fun v => le_bytes 2 (v mod 2 ^ 16))
                             (map pcm_sample samples))) (44 + i * 2) =
              pcm_truncated x).
  { unfold getInt16.
    rewrite <- (header_bytes_length sampleRate (Z.of_nat (List.length samples))).
    rewrite (getUint16_body _ _ i (pcm_sample x))
      by (rewrite nth_error_map, Hi; reflexivity).
    rewrite wrap_int16_mod by apply pcm_sample_range.
    apply pcm_sample_truncated. }
  rewrite E. split; [reflexivity|]. split.
  - now intros ->.
  - now intros q ->.
Qed.

Lemma encodeWav_samples_truncated_witness :
  exists view,
    encodeWav [Finite (1 # 4); NaN; Finite (-3)] 16000 = Some view /\
    getInt16 view 44 = 8191 /\ getInt16 view 46 = 0 /\
    getInt16 view 48 = -32768.
Proof.
  destruct (encodeWav_samples_truncated [Finite (1 # 4); NaN; Finite (-3)] 16000)
    as (view & Hview & Hs).
  exists view. split; [exact Hview|].
  destruct (Hs 0%nat (Finite (1 # 4)) eq_refl) as [H0 _].
  destruct (Hs 1%nat NaN eq_refl) as [H1 _].
  destruct (Hs 2%nat (Finite (-3)) eq_refl) as [H2 _].
  repeat split; assumption.
Defined.

(** C4 (as stated, refuted).  The sample 0.25 scales to 8191.75; the
    value stored is 8191, where rounding gives 8192. *)
Lemma encodeWav_truncates_quarter :
  option_map (fun view => getInt16 view 44)
             (encodeWav [Finite (1 # 4)] 16000) = Some 8191 /\
  pcm_stated (Finite (1 # 4)) = 8192 /\
  pcm_sample (Finite (1 # 4)) <> pcm_stated (Finite (1 # 4)).
Proof.
  repeat split; try reflexivity. vm_compute. discriminate.
Qed.

(** C5.  For every block of [n] samples and every sample rate, within
    what the 32-bit fields of a WAV header hold ([0 <= sampleRate],
    [sampleRate * 2 < 2^32], [36 + 2n < 2^32]; the recorder asks for a rate
    of 16000 and cuts chunks of [samplesPerChunk] samples): the encoder returns
    [44 + 2n] bytes that start with the RIFF/WAVE/fmt /data header, format
    tag 1, 1 channel, block align 2, 16 bits per sample, byte rate
    [sampleRate * 2] and data size [2n]; reading the header back gives the
    sample count [n] and the sample rate. *)
Theorem encodeWav_header_roundtrip :
  forall (samples : list number) (sampleRate : Z),
  let n := Z.of_nat (List.length samples) in
  0 <= sampleRate -> sampleRate * 2 < 2 ^ 32 -> 36 + n * 2 < 2 ^ 32 ->
  exists view,
    encodeWav samples sampleRate = Some view /\
    Z.of_nat (List.length view) = 44 + n * 2 /\
    decode_header view =
      mkHeader (tag "RIFF") (36 + n * 2) (tag "WAVE") (tag "fmt ") 16 1 1
               sampleRate (sampleRate * 2) 2 16 (tag "data") (n * 2) /\
    decoded_count (decode_header view) = n /\
    sample_rate (decode_header view) = sampleRate.
Proof.
  intros samples sampleRate n Hr Hr2 Hn.
  rewrite encodeWav_layout. fold n.
  eexists. split; [reflexivity|].
  set (body := concat _).
  assert (Hdec : decode_header (header_bytes sampleRate n ++ body) =
    mkHeader (tag "RIFF") (36 + n * 2) (tag "WAVE") (tag "fmt ") 16 1 1
             sampleRate (sampleRate * 2) 2 16 (tag "data") (n * 2)).
  { assert (Hn0 : 0 <= n) by (unfold n; lia).
    unfold header_bytes.
    rewrite (Z.mod_small (36 + n * 2)), (Z.mod_small sampleRate),
            (Z.mod_small (sampleRate * 2)), (Z.mod_small (n * 2)) by lia.
    pose proof (le_bytes4_value (36 + n * 2) ltac:(lia)) as E1.
    pose proof (le_bytes4_value sampleRate ltac:(lia)) as E2.
    pose proof (le_bytes4_value (sampleRate * 2) ltac:(lia)) as E3.
    pose proof (le_bytes4_value (n * 2) ltac:(lia)) as E4.
    revert E1 E2 E3 E4.
    generalize (36 + n * 2) as f. generalize (n * 2) as d.
    generalize (sampleRate * 2) as r2. generalize sampleRate as r.
    intros r r2 d f E1 E2 E3 E4.
    unfold decode_header, getString, getUint32, getUint16, getUint8.
    cbn [tag str list_ascii_of_string map le_bytes app nth skipn firstn
         Nat.add].
    rewrite E1, E2, E3, E4. reflexivity. }
  split; [|split; [exact Hdec|]].
  - rewrite length_app, header_bytes_length. unfold body.
    rewrite body_length, length_map. unfold n. lia.
  - rewrite Hdec. unfold decoded_count. simpl. split; [|reflexivity].
    apply Z.div_mul. lia.
Qed.

Lemma encodeWav_header_roundtrip_witness :
  exists view,
    encodeWav [Finite (1 # 2); Finite 0; Finite (-1)] 16000 = Some view /\
    decoded_count (decode_header view) = 3 /\
    sample_rate (decode_header view) = 16000 /\
    byte_rate (decode_header view) = 32000.
Proof.
  destruct (encodeWav_header_roundtrip [Finite (1 # 2); Finite 0; Finite (-1)]
              16000 ltac:(lia) ltac:(simpl; lia) ltac:(simpl; lia))
    as (view & Hview & _ & Hdec & Hcount & Hrate).
  exists view. repeat split; auto. now rewrite Hdec.
Defined.
(* ================================================================== *)
(** ** Properties of the silence gate                                  *)
(* ================================================================== *)

(** *** The order of binary64 numbers *)

Lemma leb_refl x : F64.isNaN x = false -> F64.leb x x = true.
Proof.
  destruct x as [[]|[]| |[] m e]; cbn; intros; try reflexivity;
    try discriminate; unfold F64.leb, SFleb, SFcompare; cmp_cases.
Qed.

Lemma ltb_false_leb x y :
  F64.isNaN x = false -> F64.isNaN y = false ->
  F64.ltb x y = false -> F64.leb y x = true.
Proof.
  unfold F64.ltb, F64.leb, SFltb, SFleb, SFcompare.
  destruct x as [[]|[]| |[] m e], y as [[]|[]| |[] m' e']; cbn;
    intros; try reflexivity; try discriminate; cmp_cases.
Qed.

Lemma leb_ltb_false x y : F64.leb x y = true -> F64.ltb y x = false.
Proof.
  unfold F64.ltb, F64.leb, SFltb, SFleb, SFcompare.
  destruct x as [[]|[]| |[] m e], y as [[]|[]| |[] m' e']; cbn;
    intros; try reflexivity; try discriminate; cmp_cases.
Qed.

Lemma ltb_asym x y : F64.ltb x y = true -> F64.ltb y x = false.
Proof.
  unfold F64.ltb, SFltb, SFcompare.
  destruct x as [[]|[]| |[] m e], y as [[]|[]| |[] m' e']; cbn;
    intros; try reflexivity; try discriminate; cmp_cases.
Qed.

Lemma leb_trans x y z :
  F64.leb x y = true -> F64.leb y z = true -> F64.leb x z = true.
Proof.
  unfold F64.leb, SFleb, SFcompare.
  destruct x as [[]|[]| |[] m e], y as [[]|[]| |[] m' e'],
           z as [[]|[]| |[] m'' e'']; cbn;
    intros; try reflexivity; try discriminate; cmp_cases.
Qed.

(** *** NaN *)

Lemma isNaN_true x : F64.isNaN x = true -> x = S754_nan.
Proof. destruct x; cbn; congruence. Qed.

Lemma add_nan_r x : F64.add x S754_nan = S754_nan.
Proof. destruct x as [[]|[]| |[] m e]; reflexivity. Qed.

Lemma Math_max_nan_r x : F64.Math_max x S754_nan = S754_nan.
Proof. unfold F64.Math_max. cbn. now rewrite orb_true_r. Qed.

Lemma Math_abs_isNaN s : F64.isNaN (F64.Math_abs s) = F64.isNaN s.
Proof. destruct s; reflexivity. Qed.

Lemma sum_nan l : fold_left F64.add l S754_nan = S754_nan.
Proof. induction l; simpl; auto. Qed.

Lemma peak_nan l : fold_left F64.Math_max l S754_nan = S754_nan.
Proof. induction l; simpl; auto. Qed.

(** one NaN sample makes the sum of the squares and the peak NaN *)
Lemma sum_squares_nan samples : forall acc,
  existsb F64.isNaN samples = true ->
  fold_left F64.add (map (fun s => F64.mul s s) samples) acc = S754_nan.
Proof.
  induction samples as [|s samples IH]; intros acc H; [discriminate|].
  simpl in *. apply orb_true_iff in H as [H|H].
  - apply isNaN_true in H. subst.
    change (F64.mul S754_nan S754_nan) with S754_nan.
    rewrite add_nan_r. apply sum_nan.
  - now apply IH.
Qed.

Lemma peak_fold_nan samples : forall acc,
  existsb F64.isNaN samples = true ->
  fold_left F64.Math_max (map F64.Math_abs samples) acc = S754_nan.
Proof.
  induction samples as [|s samples IH]; intros acc H; [discriminate|].
  simpl in *. apply orb_true_iff in H as [H|H].
  - apply isNaN_true in H. subst. cbn [F64.Math_abs SFabs].
    rewrite Math_max_nan_r. apply peak_nan.
  - now apply IH.
Qed.

(** *** [Math.max] on numbers *)

Lemma Math_max_cases x y :
  F64.isNaN x = false -> F64.isNaN y = false ->
  (F64.Math_max x y = x \/ F64.Math_max x y = y) /\
  F64.leb x (F64.Math_max x y) = true /\
  F64.leb y (F64.Math_max x y) = true.
Proof.
  intros Hx Hy. unfold F64.Math_max. rewrite Hx, Hy. cbn [orb].
  destruct (F64.ltb x y) eqn:E1.
  - split; [now right|]. split; [|now apply leb_refl].
    apply ltb_false_leb; auto. now apply ltb_asym.
  - destruct (F64.ltb y x) eqn:E2.
    + split; [now left|]. split; [now apply leb_refl|].
      now apply ltb_false_leb.
    + assert (L1 : F64.leb y x = true) by now apply ltb_false_leb.
      assert (L2 : F64.leb x y = true) by now apply ltb_false_leb.
      destruct x as [[]|[]| |[] m e];
        (split; [auto|]); split; auto; now apply leb_refl.
Qed.

Lemma Math_max_isNaN x y :
  F64.isNaN x = false -> F64.isNaN y = false ->
  F64.isNaN (F64.Math_max x y) = false.
Proof.
  intros Hx Hy. destruct (Math_max_cases x y Hx Hy) as ([->| ->] & _); auto.
Qed.

(** the running maximum over numbers: an upper bound that is attained *)
Lemma peak_fold_spec l : forall p,
  F64.isNaN p = false -> forallb (fun x => negb (F64.isNaN x)) l = true ->
  let r := fold_left F64.Math_max l p in
  F64.isNaN r = false /\ F64.leb p r = true /\
  (forall x, In x l -> F64.leb x r = true) /\
  (r = p \/ In r l).
Proof.
  induction l as [|a l IH]; intros p Hp Hl; simpl.
  - repeat split; auto. now apply leb_refl.
  - simpl in Hl. apply andb_true_iff in Hl as [Ha Hl].
    apply negb_true_iff in Ha.
    destruct (Math_max_cases p a Hp Ha) as (Hc & L1 & L2).
    destruct (IH (F64.Math_max p a) (Math_max_isNaN p a Hp Ha) Hl)
      as (N & L & U & A).
    split; [exact N|]. split; [eapply leb_trans; eauto|]. split.
    + intros x [<-|Hx]; [eapply leb_trans; eauto | auto].
    + destruct A as [A|A]; [|now right; right].
      rewrite A. destruct Hc as [-> | ->]; [now left | now right; left].
Qed.

Lemma no_nan_forallb samples :
  existsb F64.isNaN samples = false ->
  forallb (fun x => negb (F64.isNaN x)) (map F64.Math_abs samples) = true.
Proof.
  induction samples as [|s samples IH]; simpl; [reflexivity|].
  intros H. apply orb_false_iff in H as [H1 H2].
  rewrite Math_abs_isNaN, H1. simpl. auto.
Qed.

(** the peak is the largest absolute value of the block *)
Lemma peak_of_upper samples s :
  existsb F64.isNaN samples = false ->
  In s samples -> F64.leb (F64.Math_abs s) (peak_of samples) = true.
Proof.
  intros Hn Hs.
  destruct (peak_fold_spec (map F64.Math_abs samples) F64.zero eq_refl
              (no_nan_forallb samples Hn)) as (_ & _ & U & _).
  apply U. now apply in_map.
Qed.

Lemma peak_of_attained samples :
  existsb F64.isNaN samples = false -> samples <> [] ->
  exists s, In s samples /\ peak_of samples = F64.Math_abs s.
Proof.
  intros Hn Hne.
  destruct (peak_fold_spec (map F64.Math_abs samples) F64.zero eq_refl
              (no_nan_forallb samples Hn)) as (_ & _ & U & A).
  fold (peak_of samples) in U, A.
  destruct A as [A|A].
  - destruct samples as [|s samples]; [congruence|].
    exists s. split; [now left|].
    specialize (U (F64.Math_abs s) (or_introl eq_refl)).
    rewrite A in *. unfold F64.zero, F64.leb, F64.Math_abs in *.
    destruct s as [[]|[]| |[] m e]; cbn in U |- *; congruence.
  - apply in_map_iff in A as (s & E & Hs). exists s. auto.
Qed.

Lemma peak_of_nan samples :
  existsb F64.isNaN samples = true -> peak_of samples = S754_nan.
Proof. apply peak_fold_nan. Qed.

Lemma rms_of_nan samples :
  existsb F64.isNaN samples = true -> rms_of samples = S754_nan.
Proof.
  intros H. unfold rms_of, mean_square. now rewrite sum_squares_nan.
Qed.

(** *** The loop *)

(** what the loop accumulates *)
Lemma silence_loop samples : forall sumSquares peak,
  fold_left silence_step samples (sumSquares, peak) =
  (fold_left F64.add (map (fun s => F64.mul s s) samples) sumSquares,
   fold_left F64.Math_max (map F64.Math_abs samples) peak).
Proof.
  induction samples as [|s samples IH]; intros; simpl; [reflexivity|].
  unfold silence_step at 2. cbn [fst snd]. apply IH.
Qed.

(** the answer on a block that is not empty *)
Lemma isMostlySilence_nonempty thr samples :
  samples <> [] ->
  isMostlySilence thr samples =
  F64.ltb (rms_of samples) thr &&
  F64.ltb (peak_of samples) (F64.mul thr four).
Proof.
  intros Hne. unfold isMostlySilence.
  destruct samples as [|s0 rest] eqn:Es; [congruence|]. rewrite <- Es.
  rewrite silence_loop. reflexivity.
Qed.

(** C3.  The empty block is silence.  For a block that is not empty, the
    gate answers true exactly when the root of the mean of the squares is
    below the threshold and the peak is below four times the threshold,
    both conditions being required; root, mean and product are the
    binary64 values the program computes.  The peak is the largest
    absolute value of the block when no sample is NaN; with a NaN sample
    both the root and the peak are NaN, and no comparison holds. *)
Theorem isMostlySilence_rms_and_peak :
  forall (silenceRmsThreshold : F64.double) (samples : list F64.double),
  (samples = [] -> isMostlySilence silenceRmsThreshold samples = true) /\
  (samples <> [] ->
     (isMostlySilence silenceRmsThreshold samples = true <->
      F64.ltb (rms_of samples) silenceRmsThreshold = true /\
      F64.ltb (peak_of samples) (F64.mul silenceRmsThreshold four) = true) /\
     (F64.ltb (rms_of samples) silenceRmsThreshold = false ->
        isMostlySilence silenceRmsThreshold samples = false) /\
     (F64.ltb (peak_of samples) (F64.mul silenceRmsThreshold four) = false ->
        isMostlySilence silenceRmsThreshold samples = false)) /\
  (existsb F64.isNaN samples = false ->
     (forall s, In s samples ->
        F64.leb (F64.Math_abs s) (peak_of samples) = true) /\
     (samples <> [] ->
        exists s, In s samples /\ peak_of samples = F64.Math_abs s)) /\
  (existsb F64.isNaN samples = true ->
     rms_of samples = S754_nan /\ peak_of samples = S754_nan).
Proof.
  intros thr samples. split; [now intros ->|]. split; [|split].
  - intros Hne. rewrite (isMostlySilence_nonempty thr samples Hne).
    split; [apply andb_true_iff|]. split.
    + intros ->. reflexivity.
    + intros ->. apply andb_false_r.
  - intros Hn. split; [intros s; now apply peak_of_upper|].
    now apply peak_of_attained.
  - intros Hn. split; [now apply rms_of_nan | now apply peak_of_nan].
Qed.

(** the block [1, 0] at the threshold that is the binary64 root of one
    half: the root computed is the threshold itself, not below it, and the
    block is not silence *)
Lemma isMostlySilence_rms_and_peak_witness :
  isMostlySilence (F64.make 6369051672525773 (-53)) [F64.of_Z 1; F64.zero] =
  false.
Proof.
  destruct (isMostlySilence_rms_and_peak
              (F64.make 6369051672525773 (-53)) [F64.of_Z 1; F64.zero])
    as (_ & H & _).
  destruct H as (_ & Hrms & _); [discriminate|].
  apply Hrms. vm_compute. reflexivity.
Defined.

(** a hundred samples of the binary32 number nearest to one tenth, at that
    threshold: the root computed is below the threshold and the block is
    silence *)
Example isMostlySilence_hundred_tenths :
  let tenth := F64.make 13421773 (-27) in
  isMostlySilence tenth (repeat tenth 100) = true.
Proof. vm_compute. reflexivity. Qed.
(* ================================================================== *)
(** ** The last samples, the last characters                           *)
(* ================================================================== *)

Lemma slice_last_all {A : Type} n (l : list A) :
  (List.length l <= n)%nat -> slice_last n l = l.
Proof.
  intros H. unfold slice_last.
  replace (List.length l - n)%nat with 0%nat by lia. reflexivity.
Qed.

Lemma slice_last_length_min {A : Type} n (l : list A) :
  List.length (slice_last n l) = Nat.min n (List.length l).
Proof. unfold slice_last. rewrite length_skipn. lia. Qed.

(** keeping the last [n] twice is keeping the last [n] of the whole *)
Lemma slice_last_app {A : Type} n (a b : list A) :
  slice_last n (slice_last n a ++ b) = slice_last n (a ++ b).
Proof.
  destruct (Nat.le_gt_cases (List.length a) n) as [Hle|Hgt].
  - now rewrite (slice_last_all n a).
  - unfold slice_last at 1 3.
    rewrite !length_app, slice_last_length_min.
    replace (Nat.min n (List.length a)) with n by lia.
    unfold slice_last.
    replace (n + List.length b - n)%nat with (List.length b) by lia.
    replace (List.length a + List.length b - n)%nat
      with (List.length b + (List.length a - n))%nat by lia.
    rewrite <- skipn_skipn. f_equal.
    rewrite skipn_app.
    replace (List.length a - n - List.length a)%nat with 0%nat by lia.
    reflexivity.
Qed.

(** X1.  After any series of appended texts the tail is the last 200 code
    units of everything appended, and never longer than 200. *)
Theorem updateTail_last_200 :
  forall (appended : list jsstring) (previousTail : jsstring),
  (List.length previousTail <= 200)%nat ->
  fold_left updateTail appended previousTail =
    slice_last 200 (previousTail ++ concat appended) /\
  (List.length (fold_left updateTail appended previousTail) <= 200)%nat.
Proof.
  induction appended as [|a appended IH]; intros tail Hlen; simpl.
  - rewrite app_nil_r, slice_last_all by assumption. auto.
  - assert (Hstep : updateTail tail a = slice_last 200 (tail ++ a))
      by reflexivity.
    destruct (IH (updateTail tail a)) as [IH1 IH2].
    { rewrite Hstep, slice_last_length_min. lia. }
    split; [|exact IH2].
    rewrite IH1, Hstep, slice_last_app, <- app_assoc. reflexivity.
Qed.

Lemma updateTail_last_200_witness :
  fold_left updateTail [str "the cat"; str " sat"] [] = str "the cat sat".
Proof.
  destruct (updateTail_last_200 [str "the cat"; str " sat"] [])
    as [H _]; [simpl; lia|].
  rewrite H. reflexivity.
Defined.

Section BacklogFacts.

Context {sample : Type} (zero : sample).

Implicit Types (q : queue sample) (b : block sample).

(** one arrival keeps the newest [maxSamples] samples *)
Lemma arrive_newest mbc spc b q :
  queue_wf q -> 0 <= spc * mbc ->
  concat (sampleBuffers (arrive mbc spc b q)) =
    slice_last (Z.to_nat (spc * mbc)) (concat (sampleBuffers q) ++ b) /\
  queue_wf (arrive mbc spc b q).
Proof.
  intros Hwf Hmax.
  assert (Hwf1 : queue_wf (push b q)) by now apply push_wf.
  split; [|now apply trimBacklog_wf].
  unfold arrive, trimBacklog. rewrite <- push_concat.
  unfold queue_wf in Hwf1.
  remember (push b q) as q1 eqn:Eq1. clear Eq1.
  destruct (Z.leb_spec (samplesCollected q1) (spc * mbc)); simpl.
  - rewrite slice_last_all by lia. reflexivity.
  - rewrite discardLoop_spec. unfold slice_last. f_equal. lia.
Qed.

Lemma arriveAll_newest mbc spc blocks : forall q,
  queue_wf q -> 0 <= spc * mbc ->
  Z.of_nat (List.length (concat (sampleBuffers q))) <= spc * mbc ->
  concat (sampleBuffers (arriveAll mbc spc blocks q)) =
    slice_last (Z.to_nat (spc * mbc))
               (concat (sampleBuffers q) ++ concat blocks).
Proof.
  induction blocks as [|b blocks IH]; intros q Hwf Hmax Hfit; simpl.
  - rewrite app_nil_r, slice_last_all by lia. reflexivity.
  - destruct (arrive_newest mbc spc b q Hwf Hmax) as [Hb Hwf1].
    rewrite IH; auto.
    + rewrite Hb, slice_last_app, <- app_assoc. reflexivity.
    + rewrite Hb, slice_last_length_min. lia.
Qed.

End BacklogFacts.

(** X2.  Blocks that arrive in an empty queue with nothing taken in
    between leave the newest [maxSamples] samples queued, the older ones
    having been dropped: what is queued is the end of the concatenation of
    the blocks, [min(total, maxSamples)] samples long. *)
Theorem arriveAll_keeps_newest :
  forall (sample : Type) (maxBufferedChunks samplesPerChunk : Z)
         (blocks : list (block sample)),
  0 <= samplesPerChunk -> 0 <= maxBufferedChunks ->
  let maxSamples := samplesPerChunk * maxBufferedChunks in
  let q := arriveAll maxBufferedChunks samplesPerChunk blocks emptyQueue in
  concat (sampleBuffers q) =
    slice_last (Z.to_nat maxSamples) (concat blocks) /\
  samplesCollected q =
    Z.min maxSamples (Z.of_nat (List.length (concat blocks))) /\
  exists dropped, concat blocks = dropped ++ concat (sampleBuffers q).
Proof.
  intros sample mbc spc blocks Hspc Hmbc maxSamples q.
  assert (Hmax : 0 <= maxSamples) by (apply Z.mul_nonneg_nonneg; auto).
  assert (Hq : concat (sampleBuffers q) =
               slice_last (Z.to_nat maxSamples) (concat blocks)).
  { unfold q. rewrite arriveAll_newest; auto; try reflexivity. }
  assert (Hwf : queue_wf q) by (apply arriveAll_wf; reflexivity).
  split; [exact Hq|]. split.
  - rewrite Hwf, Hq, slice_last_length_min. lia.
  - rewrite Hq. eexists. unfold slice_last. symmetry. apply firstn_skipn.
Qed.

Lemma arriveAll_keeps_newest_witness :
  concat (sampleBuffers
            (arriveAll 2 2 [[1; 2; 3]; [4; 5]; [6]]%nat emptyQueue)) =
  [3; 4; 5; 6]%nat.
Proof.
  destruct (arriveAll_keeps_newest nat 2 2 [[1; 2; 3]; [4; 5]; [6]]%nat
              ltac:(lia) ltac:(lia)) as [H _].
  rewrite H. reflexivity.
Defined.

Section LoopFacts.

Context {sample : Type} (zero : sample).
Context (gate : block sample -> bool) (tryBlock : nat -> block sample -> bool).

Implicit Types (r : recorder sample).







End LoopFacts.



(** the same event when every request is answered *)
Example onaudioprocess_all_sent :
  onaudioprocess 0%nat (fun _ => false) (fun _ _ => true) 12 2
                 [3; 4; 5]%nat (mkRecorder true (mkQueue [[1; 2]%nat] 2) 0) =
  ([[1; 2]; [3; 4]]%nat, mkRecorder true (mkQueue [[5%nat]] 1) 2).
Proof. reflexivity. Qed.



(** the same events when the second request fails: the session stops in
    the third event and the last three samples are lost *)
Example onaudioprocessAll_stops :
  onaudioprocessAll 0%nat (fun _ => false) (fun k _ => (k <? 1)%nat) 3 2
                    [[1; 2; 3]; [4]; [5; 6; 7]; [8; 9]]%nat startRecorder =
  ([[1; 2]; [3; 4]]%nat, mkRecorder false emptyQueue 2).
Proof. reflexivity. Qed.
(* ================================================================== *)
(** ** The tuning values in effect                                     *)
(* ================================================================== *)

Lemma Math_round_inject_Z z : Math_round (inject_Z z) = z.
Proof.
  unfold Math_round, Qfloor, Qplus, inject_Z. simpl.
  replace (z * 2 + 1) with (1 + z * 2) by lia.
  rewrite Z.div_add by lia. reflexivity.
Qed.

Lemma Qfloor_unit y : (0 <= y)%Q -> (y < 1)%Q -> Qfloor y = 0.
Proof.
  intros H0 H1.
  pose proof (Qfloor_le y) as Hle. pose proof (Qlt_floor y) as Hlt.
  assert (Ha : (inject_Z (Qfloor y) < inject_Z 1)%Q)
    by (eapply Qle_lt_trans; eauto).
  assert (Hb : (inject_Z 0 < inject_Z (Qfloor y + 1))%Q)
    by (eapply Qle_lt_trans; eauto).
  rewrite <- Zlt_Qlt in Ha, Hb. lia.
Qed.

Lemma Math_round_zero_iff q :
  (0 < q)%Q -> (Math_round q = 0 <-> (q < 1 # 2)%Q).
Proof.
  intros Hq. unfold Math_round. split.
  - intros E. pose proof (Qlt_floor (q + (1 # 2))) as Hlt.
    rewrite E in Hlt. simpl in Hlt.
    apply Qplus_lt_l with (z := (1 # 2)%Q).
    eapply Qlt_le_trans; [exact Hlt|]. discriminate.
  - intros Hhalf. apply Qfloor_unit.
    + apply Qlt_le_weak. eapply Qlt_trans; [exact Hq|].
      rewrite <- (Qplus_0_r q) at 1. apply Qplus_lt_r. reflexivity.
    + eapply Qlt_le_trans.
      * apply Qplus_lt_l. exact Hhalf.
      * discriminate.
Qed.

Lemma num_gt_0 q : num_gt (Finite q) (Finite 0) = true <-> (0 < q)%Q.
Proof.
  unfold num_gt, num_lt. rewrite negb_true_iff. split.
  - intros E. destruct (Qlt_le_dec 0 q) as [H|H]; auto.
    apply Qle_bool_iff in H. congruence.
  - intros H. destruct (Qle_bool q 0) eqn:E; auto.
    apply Qle_bool_iff in E. exfalso. apply (Qlt_not_le _ _ H E).
Qed.

(** the threshold in effect is a finite number that is not negative *)
Lemma applyTuningSettings_threshold (s : settings.t) :
  exists q, silenceRmsThreshold (applyTuningSettings s) = Finite q /\
            (0 <= q)%Q.
Proof.
  unfold applyTuningSettings. simpl.
  destruct (settings.silenceThreshold s) as [q| | |]; simpl;
    try (eexists; split; [reflexivity | discriminate]).
  unfold num_lt. destruct (Qle_bool q 0) eqn:E; simpl.
  - exists 0%Q. split; [reflexivity | apply Qle_refl].
  - exists q. split; [reflexivity|].
    destruct (Qlt_le_dec 0 q) as [H|H]; [now apply Qlt_le_weak|].
    apply Qle_bool_iff in H. congruence.
Qed.

(** X4.  Whatever the settings hold, the silence threshold in effect is
    a finite number that is not negative and the buffer bound in effect is
    an integer that is not negative; the bound is 0 exactly when the
    configured value lies strictly between 0 and one half. *)
Theorem applyTuningSettings_in_range :
  forall s : settings.t,
  (exists q, silenceRmsThreshold (applyTuningSettings s) = Finite q /\
             (0 <= q)%Q) /\
  0 <= maxBufferedChunks (applyTuningSettings s) /\
  (maxBufferedChunks (applyTuningSettings s) = 0 <->
   exists x, settings.maxBufferedChunks s = Finite x /\
             (0 < x)%Q /\ (x < 1 # 2)%Q).
Proof.
  intros s. split; [|split].
  - apply applyTuningSettings_threshold.
  - apply applyTuningSettings_maxBufferedChunks.
  - unfold applyTuningSettings. cbn [maxBufferedChunks].
    destruct (settings.maxBufferedChunks s) as [q| | |];
      try (split; [discriminate | intros (x & Hx & _); discriminate]).
    destruct (num_gt (Finite q) (Finite 0)) eqn:E.
    + apply num_gt_0 in E. split.
      * intros Hz. exists q. repeat split; auto.
        now apply Math_round_zero_iff.
      * intros (x & Hx & H0 & H1). injection Hx as <-.
        now apply Math_round_zero_iff.
    + split; [discriminate|].
      intros (x & Hx & H0 & _). injection Hx as <-.
      apply num_gt_0 in H0. congruence.
Qed.

(** X5.  With a buffer bound of 0 in effect, as a configured value of one
    quarter gives, every audio event discards all that is queued: no chunk
    is cut and the queue is left without samples. *)
Theorem zero_bound_discards_everything :
  forall (s : settings.t) (sample : Type) (zero : sample)
         (gate : block sample -> bool)
         (tryBlock : nat -> block sample -> bool)
         (samplesPerChunk : nat) (clone : block sample)
         (r : recorder sample),
  maxBufferedChunks (applyTuningSettings s) = 0 ->
  queue_wf (buffered r) -> (1 <= samplesPerChunk)%nat ->
  let result :=
    onaudioprocess zero gate tryBlock
                   (maxBufferedChunks (applyTuningSettings s))
                   samplesPerChunk clone r in
  fst result = [] /\
  samplesCollected (buffered (snd result)) = 0 /\
  concat (sampleBuffers (buffered (snd result))) = [] /\
  isTranscribing (snd result) = isTranscribing r /\
  sent (snd result) = sent r.
Proof.
  intros s sample zero gate tryBlock spc clone r Hz Hwf Hspc result.
  subst result. rewrite Hz.
  set (arrived := arrive 0 (Z.of_nat spc) clone (buffered r)).
  destruct (arrive_newest 0 (Z.of_nat spc) clone (buffered r) Hwf ltac:(lia))
    as [Hcat Hwf1].
  fold arrived in Hcat, Hwf1.
  assert (Hnil : concat (sampleBuffers arrived) = []).
  { rewrite Hcat. rewrite Z.mul_0_r. unfold slice_last. simpl.
    rewrite Nat.sub_0_r. apply skipn_all. }
  assert (Hcnt : samplesCollected arrived = 0).
  { unfold queue_wf in Hwf1. rewrite Hwf1, Hnil. reflexivity. }
  unfold onaudioprocess. fold arrived. rewrite Hcnt. simpl.
  repeat split; auto.
Qed.

Lemma zero_bound_discards_everything_witness :
  let s := settings.mk (Finite 4000) (Finite (15 # 10000)) (Finite (1 # 4))
                       (Finite 2) in
  maxBufferedChunks (applyTuningSettings s) = 0 /\
  fst (onaudioprocess 0%nat (fun _ => false) (fun _ _ => true)
         (maxBufferedChunks (applyTuningSettings s)) 2
         [1; 2; 3]%nat startRecorder) = [].
Proof.
  intros s.
  assert (Hz : maxBufferedChunks (applyTuningSettings s) = 0) by reflexivity.
  split; [exact Hz|].
  apply (zero_bound_discards_everything s nat 0%nat (fun _ => false)
           (fun _ _ => true) 2 [1; 2; 3]%nat startRecorder Hz);
    [reflexivity | lia].
Defined.

(** X6.  Values stored by the settings tab are always valid: whatever
    number is typed, the chunk duration stored is finite and above 500, and
    the tuning step then gives a threshold that is not negative, a buffer
    bound of at least 1 and a repeat bound of at least 1. *)
Theorem settings_tab_values_valid :
  forall n1 n2 n3 n4 : number,
  let s := settings.mk (onChange_chunkMs n1) (onChange_silenceThreshold n2)
                       (onChange_maxBufferedChunks n3)
                       (onChange_maxConsecutiveWordRepeats n4) in
  (exists c, settings.chunkMs s = Finite c /\ (500 < c)%Q) /\
  (exists q, silenceRmsThreshold (applyTuningSettings s) = Finite q /\
             (0 <= q)%Q) /\
  1 <= maxBufferedChunks (applyTuningSettings s) /\
  1 <= maxConsecutiveWordRepeats (applyTuningSettings s).
Proof.
  intros n1 n2 n3 n4 s. split; [|split; [|split]].
  - simpl. unfold onChange_chunkMs.
    destruct n1 as [q| | |]; simpl;
      try (exists 4000%Q; split; reflexivity).
    destruct (Qle_bool q 500) eqn:E; simpl.
    + exists 4000%Q. split; reflexivity.
    + exists q. split; [reflexivity|].
      destruct (Qlt_le_dec 500 q) as [H|H]; auto.
      apply Qle_bool_iff in H. congruence.
  - apply applyTuningSettings_threshold.
  - unfold applyTuningSettings. cbn [maxBufferedChunks s settings.maxBufferedChunks].
    unfold onChange_maxBufferedChunks.
    destruct n3 as [q| | |]; try (cbv; discriminate).
    destruct (num_gt (Finite q) (Finite 0)) eqn:E; [|cbv; discriminate].
    apply num_gt_0 in E.
    destruct (num_gt (Finite (inject_Z (Math_round q))) (Finite 0)) eqn:E2;
      [|lia].
    rewrite Math_round_inject_Z.
    apply num_gt_0 in E2. change 0%Q with (inject_Z 0) in E2.
    rewrite <- Zlt_Qlt in E2. lia.
  - unfold applyTuningSettings.
    cbn [maxConsecutiveWordRepeats s settings.maxConsecutiveWordRepeats].
    unfold onChange_maxConsecutiveWordRepeats.
    destruct n4 as [q| | |]; try (cbv; discriminate).
    destruct (num_ge (Finite q) (Finite 1)) eqn:E; [|cbv; discriminate].
    destruct (num_ge (Finite (inject_Z (Math_round q))) (Finite 1)) eqn:E2;
      [|lia].
    rewrite Math_round_inject_Z. apply Math_round_ge_1.
    unfold num_ge in E. now apply Qle_bool_iff.
Qed.
(* ================================================================== *)
(** ** More on the stitcher                                            *)
(* ================================================================== *)

Lemma kept_words_good maxRepeats text w :
  In w (kept_words maxRepeats (words text)) -> ws_free w /\ w <> [].
Proof. intros Hw. apply kept_from_incl in Hw. eapply words_spec, Hw. Qed.

Lemma dedupe_shape maxRepeats text :
  single_spaced (dedupeConsecutiveWords maxRepeats text).
Proof.
  rewrite dedupe_kept_words.
  destruct (join_words_shape _ (kept_words_good maxRepeats text))
    as (Ha & Hb & Hc & Hd).
  repeat split; auto. unfold trim. now rewrite Hc.
Qed.

Lemma overlapLoop_dedupe maxRepeats prevWords nextWords incoming k :
  exists x,
    overlapLoop maxRepeats prevWords nextWords incoming k =
    dedupeConsecutiveWords maxRepeats x.
Proof.
  induction k as [|k IH]; simpl.
  - eauto.
  - destruct (str_eqb _ _); eauto.
Qed.

Lemma cleanTranscript_dedupe maxRepeats incoming previousTail :
  exists x,
    cleanTranscript maxRepeats incoming previousTail =
    dedupeConsecutiveWords maxRepeats x.
Proof.
  unfold cleanTranscript.
  destruct incoming as [|c incoming]; [exists []; reflexivity|].
  simpl negb. cbv iota.
  destruct previousTail as [|d previousTail]; simpl negb; cbv iota.
  - eauto.
  - apply overlapLoop_dedupe.
Qed.

(** a text that [trim] leaves unchanged does not start with white space *)
Lemma trim_fixed_no_leading_space (s : jsstring) :
  trim s = s -> starts_with_space s = false.
Proof.
  intros Htrim. destruct s as [|c r]; [reflexivity|].
  simpl. destruct (is_space c) eqn:Hc; [|reflexivity].
  exfalso. unfold trim in Htrim. simpl in Htrim. rewrite Hc in Htrim.
  assert (Hlen : forall u, (List.length (trimEnd (trimStart u)) <= List.length u)%nat).
  { intros u. unfold trimEnd. rewrite length_rev.
    assert (Hts : forall v, (List.length (trimStart v) <= List.length v)%nat).
    { induction v as [|y v IHv]; simpl; auto.
      destruct (is_space y); simpl; lia. }
    etransitivity; [apply Hts|]. rewrite length_rev. apply Hts. }
  specialize (Hlen r). rewrite Htrim in Hlen. simpl in Hlen. lia.
Qed.

Lemma cleanTranscript_no_leading_space maxRepeats incoming previousTail :
  starts_with_space (cleanTranscript maxRepeats incoming previousTail) = false.
Proof.
  destruct (cleanTranscript_dedupe maxRepeats incoming previousTail) as [x ->].
  apply trim_fixed_no_leading_space. apply (dedupe_shape maxRepeats x).
Qed.

(** X7.  Whatever the fragment and the tail, the text [cleanTranscript]
    returns has no white space but single spaces between its words and
    none at either end; in particular it never starts with white space. *)
Theorem cleanTranscript_single_spaced :
  forall (maxRepeats : Z) (incoming previousTail : jsstring),
  single_spaced (cleanTranscript maxRepeats incoming previousTail) /\
  starts_with_space (cleanTranscript maxRepeats incoming previousTail) = false.
Proof.
  intros maxRepeats incoming previousTail. split.
  - destruct (cleanTranscript_dedupe maxRepeats incoming previousTail)
      as [x ->].
    apply dedupe_shape.
  - apply cleanTranscript_no_leading_space.
Qed.

(** X8.  A fragment of at most six words that only repeats the last
    words of a non-empty tail, case apart, inserts nothing:
    [cleanTranscript] returns the empty string. *)
Theorem cleanTranscript_duplicate_is_empty :
  forall (maxRepeats : Z) (incoming previousTail : jsstring),
  previousTail <> [] ->
  let prevWords := split_ws (trim previousTail) in
  let nextWords := split_ws (trimStart incoming) in
  (List.length nextWords <= 6)%nat ->
  (List.length nextWords <= List.length prevWords)%nat ->
  map toLowerCase (slice_last (List.length nextWords) prevWords) =
    map toLowerCase nextWords ->
  cleanTranscript maxRepeats incoming previousTail = [].
Proof.
  intros maxRepeats incoming previousTail Htail prevWords nextWords H6 Hlen Heq.
  destruct incoming as [|c incoming]; [reflexivity|].
  unfold cleanTranscript. simpl negb. cbv iota.
  destruct previousTail as [|d previousTail]; [contradiction|].
  simpl negb. cbv iota. fold prevWords. fold nextWords.
  replace (Nat.min 6 (Nat.min (List.length prevWords) (List.length nextWords)))
    with (List.length nextWords) by lia.
  assert (Hpos : (1 <= List.length nextWords)%nat).
  { pose proof (split_ws_not_nil (trimStart (c :: incoming))) as Hn.
    fold nextWords in Hn. destruct nextWords; [contradiction | simpl; lia]. }
  rewrite (overlapLoop_largest maxRepeats prevWords nextWords
             (trimStart (c :: incoming))
             (split_ws_ws_free _) (split_ws_ws_free _)
             (List.length nextWords) (List.length nextWords)); auto; try lia.
  - rewrite skipn_all. reflexivity.
  - unfold overlap_matches. now rewrite firstn_all.
Qed.

Lemma cleanTranscript_duplicate_is_empty_witness :
  cleanTranscript 2 (str "Cat sat") (str "the cat sat") = [].
Proof.
  apply cleanTranscript_duplicate_is_empty.
  - discriminate.
  - simpl. lia.
  - simpl. lia.
  - reflexivity.
Defined.

(** *** Cleaning twice *)

Lemma split_ws_join ws :
  ws <> [] -> (forall w, In w ws -> ws_free w /\ w <> []) ->
  split_ws (join (str " ") ws) = ws.
Proof.
  induction ws as [|w ws IH]; intros Hne Hall; [contradiction|].
  destruct (Hall w (or_introl eq_refl)) as [Hw Hwne].
  rewrite join_cons. destruct ws as [|w' ws].
  - unfold split_ws. rewrite <- (app_nil_r w) at 1.
    rewrite split_capture_word by assumption. simpl.
    now rewrite app_nil_r.
  - set (J := join (str " ") (w' :: ws)) in *.
    assert (HJ : split_ws J = w' :: ws).
    { apply IH; [discriminate | intros; apply Hall; now right]. }
    assert (Hts : trimStart J = J).
    { destruct (join_words_shape (w' :: ws)) as (_ & _ & Hc & _); auto.
      intros; apply Hall; now right. }
    unfold split_ws in *.
    rewrite split_capture_word by assumption.
    rewrite (split_capture_run (str " ") J) by (auto; reflexivity).
    simpl. rewrite app_nil_r. f_equal. exact HJ.
Qed.

Lemma words_join ws :
  (forall w, In w ws -> ws_free w /\ w <> []) ->
  words (join (str " ") ws) = ws.
Proof.
  intros Hall. unfold words.
  destruct ws as [|w ws]; [reflexivity|].
  rewrite split_ws_join by (auto; discriminate).
  apply forallb_filter_id. apply forallb_forall.
  intros x Hx. apply truthy_true. now apply Hall.
Qed.

Lemma emitted_cap maxRepeats w before :
  emitted maxRepeats w before = (repeat_index w before <? cap maxRepeats)%nat.
Proof.
  unfold emitted, cap.
  destruct (Nat.ltb_spec (repeat_index w before)
                         (Z.to_nat (Z.max 1 maxRepeats))) as [H|H].
  - apply negb_true_iff, andb_false_iff.
    destruct (Nat.ltb_spec 0 (repeat_index w before)); [right | now left].
    apply Z.leb_gt. lia.
  - apply negb_false_iff, andb_true_iff. split.
    + apply Nat.ltb_lt. lia.
    + apply Z.leb_le. lia.
Qed.

Lemma repeat_index_cons v w before :
  repeat_index v (w :: before) =
  if truthy (normalize v) && str_eqb (normalize v) (normalize w)
  then S (repeat_index v before) else 0%nat.
Proof. reflexivity. Qed.


Lemma stands_for_emitted maxRepeats kept before w :
  stands_for maxRepeats kept before ->
  emitted maxRepeats w before = true ->
  emitted maxRepeats w kept = true /\
  stands_for maxRepeats (w :: kept) (w :: before).
Proof.
  intros Hs He. rewrite emitted_cap in He. apply Nat.ltb_lt in He.
  split.
  - rewrite emitted_cap, Hs. apply Nat.ltb_lt. lia.
  - intros v. rewrite !repeat_index_cons.
    destruct (truthy (normalize v) && str_eqb (normalize v) (normalize w)) eqn:E.
    + assert (En : normalize v = normalize w).
      { apply andb_true_iff in E. now apply str_eqb_eq. }
      rewrite Hs, (repeat_index_ext v w before En). lia.
    + lia.
Qed.

Lemma stands_for_dropped maxRepeats kept before w :
  stands_for maxRepeats kept before ->
  emitted maxRepeats w before = false ->
  stands_for maxRepeats kept (w :: before).
Proof.
  intros Hs He. rewrite emitted_cap in He. apply Nat.ltb_ge in He.
  assert (Hcap : (1 <= cap maxRepeats)%nat) by (unfold cap; lia).
  intros v. rewrite repeat_index_cons, Hs.
  destruct (truthy (normalize v) && str_eqb (normalize v) (normalize w)) eqn:E.
  - assert (En : normalize v = normalize w).
    { apply andb_true_iff in E. now apply str_eqb_eq. }
    rewrite (repeat_index_ext v w before En). lia.
  - destruct before as [|p before]; [simpl in He; lia|].
    rewrite repeat_index_cons in He |- *.
    destruct (truthy (normalize w) && str_eqb (normalize w) (normalize p)) eqn:Ew;
      [|lia].
    assert (Ewp : normalize w = normalize p).
    { apply andb_true_iff in Ew. now apply str_eqb_eq. }
    rewrite <- Ewp, E. reflexivity.
Qed.

Lemma kept_from_twice maxRepeats ws : forall kept before,
  stands_for maxRepeats kept before ->
  kept_from maxRepeats kept (kept_from maxRepeats before ws) =
  kept_from maxRepeats before ws.
Proof.
  induction ws as [|w ws IH]; intros kept before Hs; [reflexivity|].
  simpl kept_from at 2 3.
  destruct (emitted maxRepeats w before) eqn:E.
  - destruct (stands_for_emitted _ _ _ w Hs E) as [Ek Hs'].
    simpl. rewrite Ek. simpl. f_equal. now apply IH.
  - simpl. apply IH. now apply stands_for_dropped.
Qed.

(** X9.  Cleaning is idempotent: [dedupeConsecutiveWords] applied to its
    own output returns it unchanged, whatever the bound. *)
Theorem dedupe_idempotent :
  forall (maxRepeats : Z) (text : jsstring),
  dedupeConsecutiveWords maxRepeats
    (dedupeConsecutiveWords maxRepeats text) =
  dedupeConsecutiveWords maxRepeats text.
Proof.
  intros maxRepeats text.
  rewrite (dedupe_kept_words maxRepeats text).
  rewrite dedupe_kept_words.
  rewrite words_join by apply kept_words_good.
  unfold kept_words. rewrite kept_from_twice; [reflexivity|].
  intros v. reflexivity.
Qed.
(* ================================================================== *)
(** ** Inserting in the editor                                         *)
(* ================================================================== *)

Lemma ends_with_word_snoc s c :
  ends_with_word (s ++ [c]) = negb (is_space c).
Proof. unfold ends_with_word. rewrite rev_app_distr. reflexivity. Qed.

(** the character before an offset, as [getRange] returns it *)
Lemma getRange_before doc base :
  (1 <= base <= List.length doc)%nat ->
  exists c,
    getRange doc (base - 1) base = [c] /\
    ends_with_word (firstn base doc) = negb (is_space c).
Proof.
  intros Hb.
  assert (Hlen : List.length (firstn base doc) = base)
    by (apply firstn_length_le; lia).
  destruct (exists_last (l := firstn base doc)) as (Y & c & E).
  { intros E. rewrite E in Hlen. simpl in Hlen. lia. }
  exists c. split.
  - unfold getRange.
    replace (base - (base - 1))%nat with 1%nat by lia.
    assert (HY : List.length Y = (base - 1)%nat).
    { rewrite E, length_app in Hlen. simpl in Hlen. lia. }
    rewrite <- (firstn_skipn base doc), E, <- app_assoc, skipn_app.
    rewrite skipn_all2 by lia. rewrite HY, Nat.sub_diag. reflexivity.
  - rewrite E. apply ends_with_word_snoc.
Qed.

(** one transcript on an active editor, the offset inside the text *)
Lemma insertTranscript_step :
  forall (maxRepeats : Z) (transcript doc : jsstring) (cursor : nat)
         (st : stitch_state),
  let base := match baseOffset st with None => cursor | Some b => b end in
  let cleaned := cleanTranscript maxRepeats transcript (lastTranscriptTail st) in
  (base <= List.length doc)%nat ->
  insertTranscript maxRepeats transcript (Some (doc, cursor)) st =
  if truthy cleaned then
    let text := leading_space (firstn base doc) ++ cleaned in
    (Some (firstn base doc ++ text ++ skipn base doc,
           (base + List.length text)%nat),
     mkStitch (Some (base + List.length text)%nat)
              (updateTail (lastTranscriptTail st) text))
  else (Some (doc, cursor), st).
Proof.
  intros maxRepeats transcript doc cursor st base cleaned Hbase.
  unfold insertTranscript. fold base.
  destruct transcript as [|t0 transcript].
  - reflexivity.
  - simpl negb at 1. cbv iota. fold cleaned.
    pose proof (cleanTranscript_no_leading_space maxRepeats
                  (t0 :: transcript) (lastTranscriptTail st)) as Hstart.
    fold cleaned in Hstart.
    clearbody cleaned. destruct cleaned as [|c rest]; [reflexivity|].
    simpl negb at 1. cbv iota. simpl truthy. rewrite Hstart.
    rewrite andb_true_r. cbv zeta. unfold leading_space.
    destruct base as [|b] eqn:Eb.
    + simpl Nat.ltb. cbv iota. reflexivity.
    + change (0 <? S b)%nat with true. cbv iota.
      destruct (getRange_before doc (S b) ltac:(lia)) as (x & Hx & Hw).
      rewrite Hx, Hw. simpl truthy. simpl has_space.
      rewrite orb_false_r, andb_true_l.
      destruct (is_space x); reflexivity.
Qed.

(** X10.  On an active editor whose text reaches the insertion offset, a
    transcript whose cleaned text is empty changes nothing; otherwise the
    cleaned text is inserted at the offset, with one space before it
    exactly when the text before the offset ends with a character that is
    not white space; the text on both sides is untouched, and the offset,
    the cursor and the tail move on by what was inserted. *)
Theorem insertTranscript_word_boundary :
  forall (maxRepeats : Z) (transcript doc : jsstring) (cursor : nat)
         (st : stitch_state),
  let base := match baseOffset st with None => cursor | Some b => b end in
  let cleaned := cleanTranscript maxRepeats transcript (lastTranscriptTail st) in
  (base <= List.length doc)%nat ->
  insertTranscript maxRepeats transcript (Some (doc, cursor)) st =
  if truthy cleaned then
    let text := leading_space (firstn base doc) ++ cleaned in
    (Some (firstn base doc ++ text ++ skipn base doc,
           (base + List.length text)%nat),
     mkStitch (Some (base + List.length text)%nat)
              (updateTail (lastTranscriptTail st) text))
  else (Some (doc, cursor), st).
Proof.
  intros maxRepeats transcript doc cursor st.
  apply insertTranscript_step.
Qed.

Lemma insertTranscript_word_boundary_witness :
  insertTranscript 2 (str "hello  world") (Some (str "He said:", 8%nat))
                   (mkStitch None []) =
  (Some (str "He said: hello world", 20%nat),
   mkStitch (Some 20%nat) (str " hello world")).
Proof.
  rewrite insertTranscript_word_boundary; [reflexivity | simpl; lia].
Defined.

Lemma join_app sep (a b : list jsstring) :
  a <> [] -> b <> [] ->
  join sep (a ++ b) = join sep a ++ sep ++ join sep b.
Proof.
  induction a as [|x a IH]; intros Ha Hb; [contradiction|].
  destruct a as [|y a].
  - simpl app. rewrite join_cons. destruct b; [contradiction | reflexivity].
  - change ((x :: y :: a) ++ b) with (x :: ((y :: a) ++ b)).
    rewrite (join_cons sep x ((y :: a) ++ b)), (join_cons sep x (y :: a)).
    rewrite IH by (auto; discriminate).
    simpl app at 1. rewrite <- !app_assoc. reflexivity.
Qed.

Lemma join_ends_with_word ws pre :
  ws <> [] -> (forall w, In w ws -> ws_free w /\ w <> []) ->
  ends_with_word (pre ++ join (str " ") ws) = true.
Proof.
  intros Hne Hall.
  destruct (join_words_shape ws Hall) as (_ & _ & _ & Hend).
  set (J := join (str " ") ws) in *.
  assert (HJ : J <> []).
  { intros E. apply join_truthy_nil in E; auto.
    apply Forall_forall. intros w Hw. now apply Hall. }
  destruct (exists_last HJ) as (Y & c & E).
  rewrite E, app_assoc, ends_with_word_snoc.
  destruct (is_space c) eqn:Hc; [|reflexivity].
  exfalso. rewrite E in Hend. unfold trimEnd in Hend.
  rewrite rev_app_distr in Hend. simpl in Hend. rewrite Hc in Hend.
  apply (f_equal (@List.length ascii)) in Hend.
  rewrite length_rev, length_app in Hend. simpl in Hend.
  assert (Hts : forall v, (List.length (trimStart v) <= List.length v)%nat).
  { induction v as [|y v IHv]; simpl; auto.
    destruct (is_space y); simpl; lia. }
  specialize (Hts (rev Y)). rewrite length_rev in Hts. lia.
Qed.

Lemma cleaned_words maxRepeats transcript tail :
  cleanTranscript maxRepeats transcript tail <> [] ->
  exists ws,
    ws <> [] /\ (forall w, In w ws -> ws_free w /\ w <> []) /\
    cleanTranscript maxRepeats transcript tail = join (str " ") ws.
Proof.
  destruct (cleanTranscript_dedupe maxRepeats transcript tail) as [x ->].
  rewrite dedupe_kept_words. intros Hne.
  exists (kept_words maxRepeats (words x)). split; [|split]; auto.
  - intros E. rewrite E in Hne. now apply Hne.
  - apply kept_words_good.
Qed.

(** once something has been inserted, every further insertion follows it
    after one space *)
Lemma insertAll_after_run maxRepeats pre post lead :
  forall transcripts ws,
  ws <> [] -> (forall w, In w ws -> ws_free w /\ w <> []) ->
  let X := lead ++ join (str " ") ws in
  exists ws',
    ws' <> [] /\ (forall w, In w ws' -> ws_free w /\ w <> []) /\
    let X' := lead ++ join (str " ") ws' in
    insertAll maxRepeats transcripts (pre ++ X ++ post)
              (List.length pre + List.length X)
              (mkStitch (Some (List.length pre + List.length X)%nat)
                        (slice_last 200 X)) =
    (pre ++ X' ++ post, (List.length pre + List.length X')%nat,
     mkStitch (Some (List.length pre + List.length X')%nat)
              (slice_last 200 X')).
Proof.
  induction transcripts as [|t0 transcripts IH]; intros ws Hne Hall X.
  - exists ws. split; [exact Hne|]. split; [exact Hall|]. reflexivity.
  - cbn [insertAll].
    set (base := (List.length pre + List.length X)%nat).
    assert (Hpre : firstn base (pre ++ X ++ post) = pre ++ X).
    { rewrite app_assoc. unfold base. rewrite <- length_app.
      rewrite firstn_app, Nat.sub_diag, firstn_all. simpl.
      apply app_nil_r. }
    assert (Hpost : skipn base (pre ++ X ++ post) = post).
    { rewrite app_assoc. unfold base. rewrite <- length_app.
      rewrite skipn_app, Nat.sub_diag, skipn_all. reflexivity. }
    rewrite insertTranscript_step
      by (cbn [baseOffset]; rewrite !length_app; unfold base; lia).
    cbn [baseOffset lastTranscriptTail]. fold base.
    destruct (cleanTranscript maxRepeats t0 (slice_last 200 X))
      as [|c cleaned] eqn:Ec.
    + simpl truthy. cbv iota. apply IH; auto.
    + simpl truthy. cbv iota zeta.
      destruct (cleaned_words maxRepeats t0 (slice_last 200 X))
        as (wr & Hwr & Hgood & Ejoin); [rewrite Ec; discriminate|].
      rewrite Ec in Ejoin.
      rewrite Hpre, Hpost.
      assert (Hlead : leading_space (pre ++ X) = [" "%char]).
      { unfold leading_space, X. rewrite app_assoc.
        now rewrite join_ends_with_word. }
      rewrite Hlead, Ejoin.
      assert (Hall' : forall w, In w (ws ++ wr) -> ws_free w /\ w <> []).
      { intros w Hw. apply in_app_or in Hw. destruct Hw; auto. }
      assert (Hne' : ws ++ wr <> []) by (destruct ws; [contradiction | discriminate]).
      destruct (IH (ws ++ wr) Hne' Hall') as (ws' & H1 & H2 & H3).
      exists ws'. split; [exact H1|]. split; [exact H2|].
      cbv zeta in H3 |- *. rewrite <- H3.
      assert (EX : X ++ [" "%char] ++ join (str " ") wr =
                   lead ++ join (str " ") (ws ++ wr)).
      { unfold X. rewrite join_app by assumption.
        rewrite <- !app_assoc. reflexivity. }
      assert (Etail : updateTail (slice_last 200 X)
                        ([" "%char] ++ join (str " ") wr) =
                      slice_last 200 (lead ++ join (str " ") (ws ++ wr))).
      { change (updateTail (slice_last 200 X) ([" "%char] ++ join (str " ") wr))
          with (slice_last 200 (slice_last 200 X ++
                                [" "%char] ++ join (str " ") wr)).
        now rewrite slice_last_app, EX. }
      assert (Elen : (base + List.length ([" "%char] ++ join (str " ") wr) =
                      List.length pre +
                      List.length (lead ++ join (str " ") (ws ++ wr)))%nat).
      { rewrite <- EX. unfold base. rewrite !length_app. lia. }
      rewrite Etail, Elen.
      replace ((pre ++ X) ++ ([" "%char] ++ join (str " ") wr) ++ post)
        with (pre ++ (lead ++ join (str " ") (ws ++ wr)) ++ post).
      * reflexivity.
      * rewrite <- EX, <- !app_assoc. reflexivity.
Qed.

(** X11.  A series of transcripts on an editor that nothing else edits,
    from the start of a session with the cursor inside the text: all that
    is inserted forms one run at the place the cursor had when the first
    text was inserted; the run is the words of the cleaned fragments with
    single spaces between them, after one space when the text before it
    ends with a character that is not white space; the text on both sides
    is untouched, the tail is the last 200 code units of the run, and the
    cursor ends after the run. *)
Theorem insertAll_one_run :
  forall (maxRepeats : Z) (transcripts : list jsstring) (doc : jsstring)
         (cursor : nat),
  (cursor <= List.length doc)%nat ->
  exists X,
    insertAll maxRepeats transcripts doc cursor (mkStitch None []) =
    (firstn cursor doc ++ X ++ skipn cursor doc,
     (cursor + List.length X)%nat,
     mkStitch (if truthy X then Some (cursor + List.length X)%nat else None)
              (slice_last 200 X)) /\
    (X = [] \/
     exists ws,
       ws <> [] /\ (forall w, In w ws -> ws_free w /\ w <> []) /\
       X = leading_space (firstn cursor doc) ++ join (str " ") ws).
Proof.
  intros maxRepeats transcripts doc cursor Hc.
  induction transcripts as [|t0 transcripts IH].
  - exists []. split; [|now left].
    simpl. rewrite Nat.add_0_r, firstn_skipn. reflexivity.
  - cbn [insertAll].
    rewrite insertTranscript_step by (cbn [baseOffset]; lia).
    cbn [baseOffset lastTranscriptTail].
    destruct (cleanTranscript maxRepeats t0 []) as [|c cleaned] eqn:Ec.
    + simpl truthy. cbv iota. exact IH.
    + simpl truthy. cbv iota zeta.
      destruct (cleaned_words maxRepeats t0 []) as (wr & Hwr & Hgood & Ejoin);
        [rewrite Ec; discriminate|].
      rewrite Ec in Ejoin. rewrite Ejoin.
      set (pre := firstn cursor doc). set (post := skipn cursor doc).
      set (lead := leading_space pre).
      assert (Hpre : List.length pre = cursor)
        by (apply firstn_length_le; lia).
      destruct (insertAll_after_run maxRepeats pre post lead transcripts wr
                  Hwr Hgood) as (ws' & H1 & H2 & H3).
      cbv zeta in H3. rewrite Hpre in H3.
      exists (lead ++ join (str " ") ws'). split.
      * change (updateTail [] (lead ++ join (str " ") wr))
          with (slice_last 200 (lead ++ join (str " ") wr)).
        rewrite H3.
        assert (Ht : truthy (lead ++ join (str " ") ws') = true).
        { apply truthy_true. intros E. apply app_eq_nil in E.
          destruct E as [_ E]. apply join_truthy_nil in E; auto.
          apply Forall_forall. intros w Hw. now apply H2. }
        rewrite Ht. reflexivity.
      * right. exists ws'. auto.
Qed.

Lemma insertAll_one_run_witness :
  exists X,
    insertAll 2 [str "the cat sat"; str ""; str "cat sat on the mat"]
              (str "Note: (end)") 5 (mkStitch None []) =
    (str "Note:" ++ X ++ str " (end)", (5 + List.length X)%nat,
     mkStitch (if truthy X then Some (5 + List.length X)%nat else None)
              (slice_last 200 X)) /\
    (X = [] \/
     exists ws,
       ws <> [] /\ (forall w, In w ws -> ws_free w /\ w <> []) /\
       X = str " " ++ join (str " ") ws).
Proof.
  exact (insertAll_one_run 2
           [str "the cat sat"; str ""; str "cat sat on the mat"]
           (str "Note: (end)") 5 ltac:(simpl; lia)).
Defined.

Example insertAll_scenario :
  insertAll 2 [str "the cat sat"; str ""; str "cat sat on the mat"]
            (str "Note: (end)") 5 (mkStitch None []) =
  (str "Note: the cat sat on the mat (end)", 28%nat,
   mkStitch (Some 28%nat) (str " the cat sat on the mat")).
Proof. reflexivity. Qed.
(* ================================================================== *)
(** ** Messages                                                        *)
(* ================================================================== *)


Lemma replaceVars_plain vars pre x :
  forallb (fun c => negb (is_char 123 c)) pre = true ->
  replaceVars vars None (pre ++ x) = pre ++ replaceVars vars None x.
Proof.
  induction pre as [|c pre IH]; intros H; [reflexivity|].
  simpl in H. apply andb_true_iff in H. destruct H as [Hc Hpre].
  apply negb_true_iff in Hc. simpl. rewrite Hc, IH by assumption.
  reflexivity.
Qed.

Lemma replaceVars_name vars name : forall acc post,
  forallb is_word_char name = true -> truthy (acc ++ name) = true ->
  replaceVars vars (Some acc) (name ++ "}"%char :: post) =
  match vars (acc ++ name) with
  | Some value => value
  | None => "{"%char :: (acc ++ name) ++ ["}"%char]
  end ++ replaceVars vars None post.
Proof.
  induction name as [|c name IH]; intros acc post Hw Ht.
  - rewrite app_nil_r in *. simpl. rewrite Ht. reflexivity.
  - simpl in Hw. apply andb_true_iff in Hw. destruct Hw as [Hc Hname].
    simpl. rewrite Hc.
    rewrite IH; auto.
    + rewrite <- app_assoc. reflexivity.
    + rewrite <- app_assoc. exact Ht.
Qed.


(** a key that names an inherited property: the template is not a string
    and [t] throws *)
Lemma t_inherited_throws dict fallback key vars :
  dict key = NotText \/ (dict key = Undefined /\ fallback key = NotText) ->
  i18n.t dict fallback key vars = None.
Proof.
  unfold i18n.t. intros [-> | [-> ->]]; reflexivity.
Qed.

(** X12.  In a message, text without an opening brace is copied as it is;
    a placeholder [{name}] whose variable is defined is replaced by the
    value, which is inserted as it is and not scanned again, and one
    whose variable is not defined is left as it is; the rest of the
    message is treated in the same way. *)
Theorem t_replaces_placeholder :
  forall (dict fallback : jsstring -> property)
         (vars : jsstring -> option jsstring)
         (key pre name post : jsstring),
  dict key = Text (pre ++ "{"%char :: name ++ "}"%char :: post) ->
  forallb (fun c => negb (is_char 123 c)) pre = true ->
  name <> [] -> forallb is_word_char name = true ->
  i18n.t dict fallback key vars =
  Some (pre ++
        match vars name with
        | Some value => value
        | None => "{"%char :: name ++ ["}"%char]
        end ++ replaceVars vars None post).
Proof.
  intros dict fallback vars key pre name post Hkey Hpre Hne Hword.
  unfold i18n.t. rewrite Hkey. f_equal.
  rewrite replaceVars_plain by assumption. f_equal.
  simpl. change (is_char 123 "{"%char) with true. cbv iota.
  apply (replaceVars_name vars name [] post Hword).
  now apply truthy_true.
Qed.

Lemma t_replaces_placeholder_witness :
  let dict := fun k =>
    if str_eqb k (str "startNotice")
    then Text (str "Starting transcription from: {source}") else Undefined in
  let vars := fun k =>
    if str_eqb k (str "source") then Some (str "Mic {source}") else None in
  i18n.t dict dict (str "startNotice") vars =
  Some (str "Starting transcription from: Mic {source}").
Proof.
  intros dict vars.
  rewrite (t_replaces_placeholder dict dict vars (str "startNotice")
             (str "Starting transcription from: ") (str "source") []);
    try reflexivity.
  discriminate.
Defined.



(** the key [constructor] itself: the table inherits a function under that
    name and [t] throws *)
Example t_constructor_throws :
  let dict := fun k =>
    if str_eqb k (str "constructor") then NotText else Undefined in
  i18n.t dict dict (str "constructor") (fun _ => None) = None.
Proof. reflexivity. Qed.
(* ================================================================== *)
(** ** More on the sample conversion and on the gate                   *)
(* ================================================================== *)

Lemma Qtruncate_floor q : 0 <= Qnum q -> Qtruncate q = Qfloor q.
Proof.
  intros H. destruct q as [n d]. unfold Qtruncate, Qfloor. simpl in *.
  apply Z.quot_div_nonneg; lia.
Qed.

Lemma Qtruncate_ceiling q : Qnum q < 0 -> Qtruncate q = Qceiling q.
Proof.
  intros H. destruct q as [n d].
  unfold Qtruncate, Qceiling, Qfloor, Qopp. simpl in *.
  assert (E : n = - (- n)) by lia. rewrite E at 1.
  rewrite Z.quot_opp_l by lia.
  rewrite Z.quot_div_nonneg by lia. reflexivity.
Qed.

Lemma Qtruncate_le q q' : (q <= q')%Q -> Qtruncate q <= Qtruncate q'.
Proof.
  intros H.
  destruct (Z.le_gt_cases 0 (Qnum q)) as [Hq|Hq];
    destruct (Z.le_gt_cases 0 (Qnum q')) as [Hq'|Hq'].
  - rewrite !Qtruncate_floor by assumption. now apply Qfloor_resp_le.
  - exfalso. unfold Qle in H.
    assert (0 <= Qnum q * QDen q') by (apply Z.mul_nonneg_nonneg; lia).
    assert (Qnum q' * QDen q < 0) by (apply Z.mul_neg_pos; lia).
    lia.
  - rewrite Qtruncate_ceiling, Qtruncate_floor by assumption.
    apply (Z.le_trans _ 0).
    + destruct q as [n d]. unfold Qceiling, Qfloor, Qopp. simpl in *.
      assert (0 <= - n / Z.pos d) by (apply Z.div_pos; lia). lia.
    + destruct q' as [n d]. unfold Qfloor. simpl in *.
      apply Z.div_pos; lia.
  - rewrite !Qtruncate_ceiling by assumption. now apply Qceiling_resp_le.
Qed.

Lemma Qtruncate_inject_Z z : Qtruncate (inject_Z z) = z.
Proof. unfold Qtruncate, inject_Z. simpl. apply Z.quot_1_r. Qed.

Lemma clampQ_le q q' : (q <= q')%Q -> (clampQ q <= clampQ q')%Q.
Proof.
  intros H. unfold clampQ.
  apply Q.max_le_compat_l, Q.min_le_compat_l, H.
Qed.

Lemma pcm_truncated_le q q' :
  (q <= q')%Q -> pcm_truncated (Finite q) <= pcm_truncated (Finite q').
Proof.
  intros H. unfold pcm_truncated.
  pose proof (clampQ_le q q' H) as Hc.
  pose proof (clampQ_sign q) as Hs. pose proof (clampQ_sign q') as Hs'.
  destruct (Qle_bool 0 q) eqn:E; destruct (Qle_bool 0 q') eqn:E'.
  - apply Qtruncate_le. apply Qmult_le_compat_r; [assumption | discriminate].
  - exfalso. apply Qle_bool_iff in E.
    assert (H0 : (0 <= q')%Q) by (eapply Qle_trans; eauto).
    apply Qle_bool_iff in H0. congruence.
  - apply (Z.le_trans _ (Qtruncate 0)).
    + apply Qtruncate_le.
      assert (Hneg : (clampQ q <= 0)%Q).
      { destruct (Qlt_le_dec 0 (clampQ q)) as [L|L]; auto.
        apply Qlt_le_weak, Qle_bool_iff in L. congruence. }
      setoid_replace 0%Q with (0 * 32768)%Q by reflexivity.
      apply Qmult_le_compat_r; [assumption | discriminate].
    + apply Qtruncate_le. apply Qle_bool_iff in Hs'.
      apply Qmult_le_0_compat; [assumption | discriminate].
  - apply Qtruncate_le. apply Qmult_le_compat_r; [assumption | discriminate].
Qed.

(** X14.  The sample conversion keeps the order of the samples and
    saturates: a sample of 1 or more is written as 32767, a sample of -1 or
    less as -32768, and a larger sample is never written as a smaller
    value. *)
Theorem pcm_sample_monotone_saturating :
  (forall q q', (q <= q')%Q ->
     pcm_sample (Finite q) <= pcm_sample (Finite q')) /\
  (forall q, (1 <= q)%Q -> pcm_sample (Finite q) = 32767) /\
  (forall q, (q <= -1)%Q -> pcm_sample (Finite q) = -32768) /\
  pcm_sample PosInfinity = 32767 /\ pcm_sample NegInfinity = -32768.
Proof.
  split; [|split; [|split; [|split; reflexivity]]].
  - intros q q' H. rewrite !pcm_sample_truncated. now apply pcm_truncated_le.
  - intros q H. apply Z.le_antisymm.
    + apply pcm_sample_range.
    + change 32767 with (pcm_sample (Finite 1)).
      rewrite !pcm_sample_truncated. now apply pcm_truncated_le.
  - intros q H. apply Z.le_antisymm.
    + change (-32768) with (pcm_sample (Finite (-1))).
      rewrite !pcm_sample_truncated. now apply pcm_truncated_le.
    + apply pcm_sample_range.
Qed.

Lemma pcm_sample_monotone_saturating_witness :
  pcm_sample (Finite (1 # 4)) <= pcm_sample (Finite (1 # 2)) /\
  pcm_sample (Finite (3 # 2)) = 32767 /\
  pcm_sample (Finite (-7)) = -32768.
Proof.
  destruct pcm_sample_monotone_saturating as (Hm & Hhi & Hlo & _).
  split; [|split].
  - apply Hm. discriminate.
  - apply Hhi. discriminate.
  - apply Hlo. discriminate.
Defined.

(** a rounded result has the sign it is given *)
Lemma binary_round_aux_sign sx mx ex lx :
  let r := binary_round_aux F64.prec F64.emax sx mx ex lx in
  r = S754_nan \/ r = S754_zero sx \/ r = S754_infinity sx \/
  exists m e, r = S754_finite sx m e.
Proof.
  unfold binary_round_aux.
  destruct (shr_fexp _ _ mx ex lx) as [mrs' e'].
  destruct (shr_fexp _ _ _ e' loc_Exact) as [mrs'' e''].
  destruct (shr_m mrs'') as [|m|m]; auto.
  destruct (e'' <=? _); eauto 6.
Qed.

(** a square root is NaN or is not below zero: only a threshold above zero
    has a root below it *)
Lemma Math_sqrt_not_below_zero x thr :
  F64.ltb (F64.Math_sqrt x) thr = true -> F64.ltb F64.zero thr = true.
Proof.
  unfold F64.Math_sqrt, SFsqrt.
  destruct x as [[]|[]| |[] m e]; try discriminate;
    try (destruct thr as [[]|[]| |[] m' e']; cbn; congruence).
  destruct (SFsqrt_core_binary _ _ _ _) as [[mz ez] lz].
  destruct (binary_round_aux_sign false mz ez lz) as [E|[E|[E|(m' & e' & E)]]];
    rewrite E; destruct thr as [[]|[]| |[] m'' e'']; cbn; congruence.
Qed.

Lemma isMostlySilence_nan thr samples :
  existsb F64.isNaN samples = true -> isMostlySilence thr samples = false.
Proof.
  intros H. rewrite isMostlySilence_nonempty by (intros ->; discriminate).
  now rewrite rms_of_nan.
Qed.

(** X15.  The gate at its edges, in the arithmetic of the program.  With
    a threshold that is not above zero (zero, a negative number or NaN) no
    block with a sample in it is silence: a threshold of 0 turns the gate
    off.  A block with a NaN sample is never silence.  A sample whose
    absolute value is at least four times the threshold, as the program
    computes the product, keeps the whole block from being silence. *)
Theorem isMostlySilence_edges :
  (forall thr samples, F64.ltb F64.zero thr = false -> samples <> [] ->
     isMostlySilence thr samples = false) /\
  (forall thr samples, In S754_nan samples ->
     isMostlySilence thr samples = false) /\
  (forall thr samples s, In s samples ->
     F64.leb (F64.mul thr four) (F64.Math_abs s) = true ->
     isMostlySilence thr samples = false).
Proof.
  split; [|split].
  - intros thr samples Hthr Hne.
    rewrite isMostlySilence_nonempty by assumption.
    destruct (F64.ltb (rms_of samples) thr) eqn:E; [|reflexivity].
    apply Math_sqrt_not_below_zero in E. congruence.
  - intros thr samples Hin. apply isMostlySilence_nan.
    apply existsb_exists. exists S754_nan. auto.
  - intros thr samples s Hin Hs.
    destruct (existsb F64.isNaN samples) eqn:Hn;
      [now apply isMostlySilence_nan|].
    rewrite isMostlySilence_nonempty by (intros ->; contradiction).
    rewrite (leb_ltb_false (F64.mul thr four) (peak_of samples)).
    + apply andb_false_r.
    + eapply leb_trans; [exact Hs|]. now apply peak_of_upper.
Qed.

Lemma isMostlySilence_edges_witness :
  isMostlySilence F64.zero [F64.zero] = false /\
  isMostlySilence (F64.of_Z 1) [F64.zero; S754_nan] = false /\
  isMostlySilence (F64.of_Z 1) [F64.zero; F64.of_Z (-5); F64.zero] = false.
Proof.
  destruct isMostlySilence_edges as (Hoff & Hnan & Hloud).
  split; [|split].
  - apply Hoff; [reflexivity | discriminate].
  - apply Hnan. simpl. auto.
  - apply (Hloud (F64.of_Z 1) _ (F64.of_Z (-5))); [simpl; auto|].
    vm_compute. reflexivity.
Defined.
